(** * Janus: the CSG script engine and the scene manager

    A shallow embedding of [backend/engine/CSGEngine.ts] (the [CADContext]
    builtins and [CSGEngine.execute]) and of [backend/engine/SceneManager.ts]
    (the identity-keyed scene, its naming helper, the command processor and
    the undo/redo history), over the data types of [types.ts]. *)

From Stdlib Require Import Ascii String List Bool ZArith QArith Lia DecimalNat.
Import ListNotations.
Close Scope Q_scope.
Open Scope char_scope.
Open Scope string_scope.
Open Scope list_scope.

(* ------------------------------------------------------------------ *)
(** ** JavaScript numbers and decimal rendering *)

(** A value held in a [number] field at run time.  Finite numbers are
    rationals; [NNaN] and [NInf] are the non-finite doubles; [NNull] is the
    [null] that [JSON.stringify] then [JSON.parse] leaves where a non-finite
    number was. *)
Inductive num : Type :=
| NFin (q : Q)
| NNaN
| NInf (negative : bool)
| NNull.

Definition num_truthy (n : num) : bool :=
  match n with
  | NFin q => negb (Qeq_bool q 0%Q)
  | NNaN => false
  | NInf _ => true
  | NNull => false
  end.

Definition is_finite (n : num) : bool :=
  match n with NFin _ => true | _ => false end.

Definition vec3 : Type := (num * num * num)%type.

Definition zero3 : vec3 := (NFin 0%Q, NFin 0%Q, NFin 0%Q).
Definition one3 : vec3 := (NFin 1%Q, NFin 1%Q, NFin 1%Q).

Fixpoint uint_to_string (u : Decimal.uint) : string :=
  match u with
  | Decimal.Nil => ""
  | Decimal.D0 u => String "0"%char (uint_to_string u)
  | Decimal.D1 u => String "1"%char (uint_to_string u)
  | Decimal.D2 u => String "2"%char (uint_to_string u)
  | Decimal.D3 u => String "3"%char (uint_to_string u)
  | Decimal.D4 u => String "4"%char (uint_to_string u)
  | Decimal.D5 u => String "5"%char (uint_to_string u)
  | Decimal.D6 u => String "6"%char (uint_to_string u)
  | Decimal.D7 u => String "7"%char (uint_to_string u)
  | Decimal.D8 u => String "8"%char (uint_to_string u)
  | Decimal.D9 u => String "9"%char (uint_to_string u)
  end.

(** [`${n}`] for an integer-valued number. *)
Definition nat_to_string (n : nat) : string := uint_to_string (Nat.to_uint n).

Definition Z_to_string (z : Z) : string :=
  match Z.to_int z with
  | Decimal.Pos u => uint_to_string u
  | Decimal.Neg u => "-" ++ uint_to_string u
  end.

(* ------------------------------------------------------------------ *)
(** ** Geometry handed to three.js *)

Inductive csg_op : Type := ADDITION | SUBTRACTION | INTERSECTION.

(** Geometries as the three.js constructors receive them: a symbolic term
    for each constructor call, and for the result of
    [evaluator.evaluate(a, b, op)] the operands' geometries with the local
    transforms that [updateMatrixWorld] turns into their world matrices. *)
Inductive geom : Type :=
| BoxGeometry (width height depth : num)
| SphereGeometry (radius : num) (widthSegments heightSegments : nat)
| CylinderGeometry (radiusTop radiusBottom height : num) (radialSegments : nat)
| Evaluate (op : csg_op) (ga : geom) (pa ra sa : vec3) (gb : geom) (pb rb sb : vec3).

(** The [geometryData] payload: a live [BufferGeometry], the plain object
    its [toJSON] produces (what survives a JSON round trip), or plain JSON
    data carried by a command. *)
Inductive gdata : Type :=
| GDBuffer (g : geom)
| GDJson (g : geom)
| GDData (s : string).

(* ------------------------------------------------------------------ *)
(** ** types.ts *)

Inductive ShapeType : Type := BOX | SPHERE | CYLINDER | CONE | PLANE | MESH.

Record CADObject : Type := mkCADObject {
  id : string;
  name : string;
  type : ShapeType;
  position : vec3;
  rotation : vec3;
  scale : vec3;
  color : string;
  args : option (list num);
  selected : option bool;
  visible : option bool;
  geometryData : option gdata
}.

(* ------------------------------------------------------------------ *)
(** ** CSGEngine.ts: brushes and the builtins of [CADContext] *)

(** A material colour: the shared default [0xcccccc], or the colour after
    [color.set(style)] on a clone of the material whose colour was [prev]:
    three.js keeps [prev] when it cannot parse [style]. *)
Inductive mcolor : Type := CDefault | CSet (style : string) (prev : mcolor).

(** A brush: geometry, [userData.type], local transform and material. *)
Record Brush : Type := mkBrush {
  b_geometry : geom;
  b_type : string;
  b_position : vec3;
  b_rotation : vec3;
  b_scale : vec3;
  b_material : mcolor
}.

(** The values a script statement can produce.  Brushes are objects:
    [VBrush h] is a reference into the heap of the run. *)
Inductive value : Type :=
| VUndefined
| VNull
| VBool (b : bool)
| VNum (n : num)
| VStr (s : string)
| VBrush (h : nat).

(** JavaScript truthiness ([!x] is [negb (truthy x)]). *)
Definition truthy (v : value) : bool :=
  match v with
  | VUndefined | VNull => false
  | VBool b => b
  | VNum n => num_truthy n
  | VStr s => negb (String.eqb s "")
  | VBrush _ => true
  end.

(** [a || b] *)
Definition js_or (a b : value) : value := if truthy a then a else b.

Inductive exn : Type :=
| TypeError (msg : string)
| ReferenceError (x : string).

Definition exn_message (e : exn) : string :=
  match e with
  | TypeError msg => msg
  | ReferenceError x => x ++ " is not defined"
  end.

Inductive res (A : Type) : Type :=
| Ok (a : A)
| Exc (e : exn).
Arguments Ok {A} a.
Arguments Exc {A} e.

(** The state of one [CADContext] run: the brush heap, the script's
    variables, and [this.objects]. *)
Record sstate : Type := mkSState {
  heap : list Brush;
  env : list (string * value);
  objects : list CADObject
}.

Definition init_sstate : sstate := mkSState [] [] [].

Definition heap_alloc (st : sstate) (b : Brush) : value * sstate :=
  (VBrush (length (heap st)), mkSState (heap st ++ [b]) (env st) (objects st)).

Definition heap_get (st : sstate) (h : nat) : option Brush := nth_error (heap st) h.

Fixpoint list_set {A} (l : list A) (n : nat) (x : A) : list A :=
  match l, n with
  | [], _ => []
  | _ :: l', 0 => x :: l'
  | y :: l', S n' => y :: list_set l' n' x
  end.

Definition heap_put (st : sstate) (h : nat) (b : Brush) : sstate :=
  mkSState (list_set (heap st) h b) (env st) (objects st).

Fixpoint env_lookup (x : string) (e : list (string * value)) : option value :=
  match e with
  | [] => None
  | (y, v) :: e' => if String.eqb x y then Some v else env_lookup x e'
  end.

Definition env_bind (st : sstate) (x : string) (v : value) : sstate :=
  mkSState (heap st) ((x, v) :: env st) (objects st).

(** [new Brush(geo, this.material.clone())] with [userData.type] set;
    a fresh [Brush] has the default transform. *)
Definition new_brush (g : geom) (ty : string) : Brush :=
  mkBrush g ty zero3 zero3 one3 CDefault.

Definition default_num (o : option num) (d : num) : num :=
  match o with Some n => n | None => d end.

Definition half : num := NFin (1 # 2)%Q.

(** [Box = (width = 1, height = 1, depth = 1) => ...]; an omitted argument is
    [None]. *)
Definition Box (st : sstate) (width height depth : option num) : value * sstate :=
  heap_alloc st (new_brush (BoxGeometry (default_num width (NFin 1%Q))
                              (default_num height (NFin 1%Q))
                              (default_num depth (NFin 1%Q))) "BOX").

Definition Sphere (st : sstate) (radius : option num) : value * sstate :=
  heap_alloc st (new_brush (SphereGeometry (default_num radius half) 32 32) "SPHERE").

Definition Cylinder (st : sstate) (radiusTop radiusBottom height : option num)
  : value * sstate :=
  heap_alloc st (new_brush (CylinderGeometry (default_num radiusTop half)
                              (default_num radiusBottom half)
                              (default_num height (NFin 1%Q)) 32) "CYLINDER").

Definition undefined_prop (p : string) : exn :=
  TypeError ("Cannot read properties of undefined (reading '" ++ p ++ "')").

(** The shared shape of [Move], [Rotate], [Scale] and [Color]:
    [if (!mesh) return mesh;] then update the referenced brush in place and
    return the same reference. *)
Definition update_mesh (st : sstate) (mesh : value) (prop : string)
  (f : Brush -> Brush) : res (value * sstate) :=
  if negb (truthy mesh) then Ok (mesh, st) else
  match mesh with
  | VBrush h =>
      match heap_get st h with
      | Some b => Ok (mesh, heap_put st h (f b))
      | None => Exc (undefined_prop prop)
      end
  | _ => Exc (undefined_prop prop)
  end.

Definition Move (st : sstate) (mesh : value) (x y z : num) :=
  update_mesh st mesh "set" (fun b =>
    mkBrush (b_geometry b) (b_type b) (x, y, z) (b_rotation b) (b_scale b) (b_material b)).

Definition Rotate (st : sstate) (mesh : value) (x y z : num) :=
  update_mesh st mesh "set" (fun b =>
    mkBrush (b_geometry b) (b_type b) (b_position b) (x, y, z) (b_scale b) (b_material b)).

Definition Scale (st : sstate) (mesh : value) (x y z : num) :=
  update_mesh st mesh "set" (fun b =>
    mkBrush (b_geometry b) (b_type b) (b_position b) (b_rotation b) (x, y, z) (b_material b)).

(** [Color]: a brush's material is never an array here (primitives get one
    material and boolean results take [a.material]), so the material is
    cloned ([mesh.material.clone()], reading [clone]) and [color.set(hex)]
    is applied to the clone. *)
Definition Color (st : sstate) (mesh : value) (hex : string) :=
  update_mesh st mesh "clone" (fun b =>
    mkBrush (b_geometry b) (b_type b) (b_position b) (b_rotation b) (b_scale b)
      (CSet hex (b_material b))).

(** [Union], [Subtract], [Intersect]:
    [if (!a || !b) return a || b;] then [evaluator.evaluate(a, b, op)], a new
    brush with the default transform, [userData.type = 'MESH'] and
    [material = a.material]. *)
Definition boolean_op (op : csg_op) (st : sstate) (a b : value) : res (value * sstate) :=
  if negb (truthy a) || negb (truthy b) then Ok (js_or a b, st) else
  match a, b with
  | VBrush ha, VBrush hb =>
      match heap_get st ha, heap_get st hb with
      | Some ba, Some bb =>
          Ok (heap_alloc st
                (mkBrush (Evaluate op (b_geometry ba) (b_position ba) (b_rotation ba) (b_scale ba)
                                     (b_geometry bb) (b_position bb) (b_rotation bb) (b_scale bb))
                         "MESH" zero3 zero3 one3 (b_material ba)))
      | _, _ => Exc (TypeError "a.updateMatrixWorld is not a function")
      end
  | VBrush _, _ => Exc (TypeError "b.updateMatrixWorld is not a function")
  | _, _ => Exc (TypeError "a.updateMatrixWorld is not a function")
  end.

Definition Union := boolean_op ADDITION.
Definition Subtract := boolean_op SUBTRACTION.
Definition Intersect := boolean_op INTERSECTION.

Section Add.

(** three.js [Color.setStyle] followed by [getHexString()]: [Some hex] for
    a colour string it parses, [None] (a console warning, colour kept) for
    one it does not. *)
Variable hex_of_style : string -> option string.

Fixpoint getHexString (c : mcolor) : string :=
  match c with
  | CDefault => "cccccc"
  | CSet s prev =>
      match hex_of_style s with
      | Some h => h
      | None => getHexString prev
      end
  end.

(** [Add = (mesh, name) => ...]: [now k] is what the [k]-th call of
    [Date.now()] in the run returns; only [Add] calls it, once per pushed
    object, so the call index is [this.objects.length]. *)
Definition Add (now : nat -> Z) (st : sstate) (mesh : value) (nm : string)
  : res (value * sstate) :=
  if negb (truthy mesh) then Ok (VUndefined, st) else
  match mesh with
  | VBrush h =>
      match heap_get st h with
      | Some b =>
          let k := length (objects st) in
          let obj := mkCADObject
                       ("obj_" ++ nat_to_string k ++ "_" ++ Z_to_string (now k))
                       nm MESH (b_position b) (b_rotation b) (b_scale b)
                       ("#" ++ getHexString (b_material b))
                       None (Some false) (Some true)
                       (Some (GDBuffer (b_geometry b))) in
          Ok (VUndefined, mkSState (heap st) (env st) (objects st ++ [obj]))
      | None => Exc (undefined_prop "clone")
      end
  | _ => Exc (undefined_prop "clone")
  end.

End Add.

(* ------------------------------------------------------------------ *)
(** ** The script language run by [CSGEngine.execute] *)

(** The part of JavaScript that generated scripts use: literals, variables,
    calls of the destructured builtins, declarations, sequencing and
    [while] loops.  Numeric, colour and name arguments are literals; an
    omitted primitive argument is [None]. *)
Inductive lit : Type :=
| LUndefined
| LNull
| LBool (b : bool)
| LNum (n : num)
| LStr (s : string).

Definition lit_value (l : lit) : value :=
  match l with
  | LUndefined => VUndefined
  | LNull => VNull
  | LBool b => VBool b
  | LNum n => VNum n
  | LStr s => VStr s
  end.

(** The script fragment modelled: [const] declarations, expression
    statements, sequences and [while] loops over calls of the eleven
    builtins, whose numeric, colour and name arguments are literals. It has
    no [if], [break] or [return], and a script of it reads nothing but its
    own [const]s and the builtins: not [ctx] itself (so not
    [ctx.objects]), not [arguments], and no global such as [Math] or
    [Date]. *)
Inductive expr : Type :=
| EVar (x : string)
| ELit (l : lit)
| EBox (width height depth : option num)
| ESphere (radius : option num)
| ECylinder (radiusTop radiusBottom height : option num)
| EMove (mesh : expr) (x y z : num)
| ERotate (mesh : expr) (x y z : num)
| EScale (mesh : expr) (x y z : num)
| EColor (mesh : expr) (hex : string)
| EUnion (a b : expr)
| ESubtract (a b : expr)
| EIntersect (a b : expr)
| EAdd (mesh : expr) (nm : string).

Inductive stmt : Type :=
| SSkip
| SExpr (e : expr)
| SDecl (x : string) (e : expr)
| SSeq (s1 s2 : stmt)
| SWhile (cond : expr) (body : stmt).

Definition bind_res {A B} (r : res A) (k : A -> res B) : res B :=
  match r with Ok a => k a | Exc e => Exc e end.

(** What [func(context)] makes of the script, and what [execute] returns or
    throws. *)
Inductive outcome : Type :=
| Returned (objs : list CADObject)
| Thrown (msg : string).

Section Run.

Variable hex_of_style : string -> option string.
Variable now : nat -> Z.

(** Arguments are evaluated left to right, then the builtin is called. *)
Fixpoint eval_expr (st : sstate) (e : expr) : res (value * sstate) :=
  match e with
  | EVar x =>
      match env_lookup x (env st) with
      | Some v => Ok (v, st)
      | None => Exc (ReferenceError x)
      end
  | ELit l => Ok (lit_value l, st)
  | EBox w h d => Ok (Box st w h d)
  | ESphere r => Ok (Sphere st r)
  | ECylinder rt rb h => Ok (Cylinder st rt rb h)
  | EMove m x y z => bind_res (eval_expr st m) (fun '(v, st1) => Move st1 v x y z)
  | ERotate m x y z => bind_res (eval_expr st m) (fun '(v, st1) => Rotate st1 v x y z)
  | EScale m x y z => bind_res (eval_expr st m) (fun '(v, st1) => Scale st1 v x y z)
  | EColor m hex => bind_res (eval_expr st m) (fun '(v, st1) => Color st1 v hex)
  | EUnion a b =>
      bind_res (eval_expr st a) (fun '(va, st1) =>
      bind_res (eval_expr st1 b) (fun '(vb, st2) => Union st2 va vb))
  | ESubtract a b =>
      bind_res (eval_expr st a) (fun '(va, st1) =>
      bind_res (eval_expr st1 b) (fun '(vb, st2) => Subtract st2 va vb))
  | EIntersect a b =>
      bind_res (eval_expr st a) (fun '(va, st1) =>
      bind_res (eval_expr st1 b) (fun '(vb, st2) => Intersect st2 va vb))
  | EAdd m nm => bind_res (eval_expr st m) (fun '(v, st1) => Add hex_of_style now st1 v nm)
  end.

(** Statements, with a step budget of the model: [None] means the run has
    not finished within [fuel] nested steps.  The engine itself has no
    budget. *)
Fixpoint exec (fuel : nat) (st : sstate) (s : stmt) : option (res sstate) :=
  match fuel with
  | O => None
  | S f =>
      match s with
      | SSkip => Some (Ok st)
      | SExpr e => Some (bind_res (eval_expr st e) (fun '(_, st1) => Ok st1))
      | SDecl x e => Some (bind_res (eval_expr st e) (fun '(v, st1) => Ok (env_bind st1 x v)))
      | SSeq s1 s2 =>
          match exec f st s1 with
          | Some (Ok st1) => exec f st1 s2
          | r => r
          end
      | SWhile c body =>
          match eval_expr st c with
          | Ok (v, st1) =>
              if truthy v then
                match exec f st1 body with
                | Some (Ok st2) => exec f st2 (SWhile c body)
                | r => r
                end
              else Some (Ok st1)
          | Exc x => Some (Exc x)
          end
      end
  end.

(** [CSGEngine.execute(code)]: a fresh [CADContext], the script run inside
    [try { ... } catch (e) { throw new Error("Line " + (e.lineNumber || '?')
    + ": " + e.message) }] (V8 errors have no [lineNumber]), the outer catch
    logging and rethrowing, and [context.getResults()] returned. *)
Definition execute (fuel : nat) (code : stmt) : option outcome :=
  match exec fuel init_sstate code with
  | None => None
  | Some (Ok st) => Some (Returned (objects st))
  | Some (Exc e) => Some (Thrown ("Line ?: " ++ exn_message e))
  end.

End Run.

(* ------------------------------------------------------------------ *)
(** ** Names in scope inside the script *)

(** [execute] builds [new Function('ctx', functionBody)] whose body is
    [const { Box, ..., Add } = ctx; try { code } catch (e) { ... }].  Name
    resolution inside [code] walks the scope chain of that function: the
    body's [const] bindings, then the parameter [ctx] and the implicit
    [arguments] object of a non-arrow function, then the global
    environment, which a [Function]-constructed function always closes
    over. *)
Definition builtin_table : list string :=
  ["Box"; "Sphere"; "Cylinder"; "Move"; "Rotate"; "Scale"; "Color";
   "Union"; "Subtract"; "Intersect"; "Add"].

(** What a name resolves to. *)
Inductive binding : Type :=
| BBuiltin (x : string)   (* the arrow function [ctx[x]] *)
| BContext               (* the [CADContext] itself: [getResults], [objects],
                            [material], [evaluator] *)
| BArguments             (* [arguments], whose element 0 is the context *)
| BGlobal (x : string).   (* a binding of the global environment *)

(** Global bindings every ECMAScript realm has, whatever the host. *)
Definition ecmascript_globals : list string :=
  ["globalThis"; "Function"; "eval"; "Object"; "Array"; "Math"; "Date";
   "JSON"; "Promise"; "Reflect"; "Proxy"].

Definition frame_lookup (frame : list (string * binding)) (x : string) : option binding :=
  match find (fun p => String.eqb x (fst p)) frame with
  | Some (_, b) => Some b
  | None => None
  end.

(** The chain, innermost first; [host_globals] are the names the host
    (the browser page: [window], [document], [fetch], [localStorage], ...)
    adds to the global environment. *)
Definition scope_chain (host_globals : list string) : list (list (string * binding)) :=
  [ map (fun x => (x, BBuiltin x)) builtin_table;
    [("ctx", BContext); ("arguments", BArguments)];
    map (fun x => (x, BGlobal x)) (ecmascript_globals ++ host_globals) ].

Fixpoint chain_lookup (chain : list (list (string * binding))) (x : string) : option binding :=
  match chain with
  | [] => None
  | fr :: rest =>
      match frame_lookup fr x with
      | Some b => Some b
      | None => chain_lookup rest x
      end
  end.

(** The binding a free identifier of the script resolves to, if any
    (an unresolved name throws [ReferenceError]). *)
Definition resolve (host_globals : list string) (x : string) : option binding :=
  chain_lookup (scope_chain host_globals) x.

(* ------------------------------------------------------------------ *)
(** ** SceneManager.ts *)

(** A [Map<string, CADObject>]: an association list in insertion order;
    [set] on a present key replaces the value in place, otherwise it
    appends. *)
Definition objmap : Type := list (string * CADObject).

Fixpoint map_set (k : string) (v : CADObject) (m : objmap) : objmap :=
  match m with
  | [] => [(k, v)]
  | (k', v') :: m' => if String.eqb k k' then (k, v) :: m' else (k', v') :: map_set k v m'
  end.

Fixpoint map_get (k : string) (m : objmap) : option CADObject :=
  match m with
  | [] => None
  | (k', v) :: m' => if String.eqb k k' then Some v else map_get k m'
  end.

Definition map_delete (k : string) (m : objmap) : objmap :=
  filter (fun p => negb (String.eqb k (fst p))) m.

Definition map_values (m : objmap) : list CADObject := map snd m.

(** [JSON.parse(JSON.stringify(x))] on the fields of a [CADObject]:
    non-finite numbers become [null], a [BufferGeometry] becomes the plain
    object of its [toJSON], everything else is kept ([undefined] fields are
    dropped and read back as [undefined]). *)
Definition json_num (n : num) : num :=
  match n with
  | NFin q => NFin q
  | NNaN | NInf _ | NNull => NNull
  end.

Definition json_vec (v : vec3) : vec3 :=
  let '(x, y, z) := v in (json_num x, json_num y, json_num z).

Definition json_gdata (g : gdata) : gdata :=
  match g with
  | GDBuffer g' | GDJson g' => GDJson g'
  | GDData s => GDData s
  end.

Definition json_obj (o : CADObject) : CADObject :=
  mkCADObject (id o) (name o) (type o) (json_vec (position o)) (json_vec (rotation o))
    (json_vec (scale o)) (color o) (option_map (map json_num) (args o))
    (selected o) (visible o) (option_map json_gdata (geometryData o)).

(** The text [exportScene] returns, identified with what [JSON.parse]
    reads back from it. *)
Definition snapshot : Type := list CADObject.

Record scene : Type := mkScene {
  sobjects : objmap;
  history : list snapshot;
  redoStack : list snapshot;
  generated : nat  (* how many [obj_${Date.now()}_${random}] ids were made *)
}.

Definition empty_scene : scene := mkScene [] [] [] 0.

Definition maxHistory : nat := 20.

Definition set_objects (sc : scene) (m : objmap) : scene :=
  mkScene m (history sc) (redoStack sc) (generated sc).

Definition getObjects (sc : scene) : list CADObject := map_values (sobjects sc).

Definition getObject (sc : scene) (k : string) : option CADObject := map_get k (sobjects sc).

(** [exportScene(): JSON.stringify(Array.from(this.objects.values()))] *)
Definition exportScene (sc : scene) : snapshot := map json_obj (map_values (sobjects sc)).

(** [loadScene(json)]: the parsed value is an array, so the map is cleared
    and every element set under its own [id], in order. *)
Definition loadScene (snap : snapshot) (sc : scene) : scene :=
  set_objects sc (fold_left (fun m o => map_set (id o) o m) snap []).

(** [saveState]: push, [shift] when over [maxHistory], clear the redo
    stack. *)
Definition bound_history (h : list snapshot) : list snapshot :=
  if Nat.ltb maxHistory (length h) then tl h else h.

Definition saveState (sc : scene) : scene :=
  mkScene (sobjects sc) (bound_history (history sc ++ [exportScene sc])) [] (generated sc).

Fixpoint str_mem (s : string) (l : list string) : bool :=
  match l with
  | [] => false
  | x :: l' => String.eqb s x || str_mem s l'
  end.

(** The [while (taken.has(candidate))] loop from [counter = 1]; it stops
    within [length taken + 1] rounds since the candidates are distinct, so
    that many rounds are given. *)
Fixpoint name_search (taken : list string) (baseName : string) (fuel counter : nat) : string :=
  let candidate := (baseName ++ nat_to_string counter)%string in
  match fuel with
  | O => candidate
  | S f => if str_mem candidate taken then name_search taken baseName f (S counter) else candidate
  end.

(** [getUniqueName(baseName, excludeId?)]: [obj.id !== excludeId] compares
    the object's own [id] field. *)
Definition getUniqueName (sc : scene) (baseName : string) (excludeId : option string) : string :=
  let taken := map name (filter (fun o => match excludeId with
                                          | Some e => negb (String.eqb (id o) e)
                                          | None => true
                                          end) (getObjects sc)) in
  if negb (str_mem baseName taken) then baseName
  else name_search taken baseName (length taken) 1.

Definition with_name (o : CADObject) (n : string) : CADObject :=
  mkCADObject (id o) n (type o) (position o) (rotation o) (scale o) (color o)
    (args o) (selected o) (visible o) (geometryData o).

Definition renameObject (objId newName : string) (sc : scene) : scene :=
  match getObject sc objId with
  | None => sc
  | Some obj =>
      if String.eqb (name obj) newName then sc else
      let sc1 := saveState sc in
      let uniqueName := getUniqueName sc1 newName (Some objId) in
      set_objects sc1 (map_set objId (with_name obj uniqueName) (sobjects sc1))
  end.

(** [obj.position[0] + 1.5] ([null] is read as 0). *)
Definition add_one_and_half (n : num) : num :=
  match n with
  | NFin q => NFin (q + (3 # 2))%Q
  | NNaN => NNaN
  | NInf b => NInf b
  | NNull => NFin (3 # 2)%Q
  end.

Section Scene.

(** The [k]-th id [obj_${Date.now()}_${Math.random()...}] the host makes. *)
Variable fresh_id : nat -> string.

Definition duplicateObject (objId : string) (sc : scene) : scene :=
  match getObject sc objId with
  | None => sc
  | Some obj =>
      let sc1 := saveState sc in
      let '(x, y, z) := position obj in
      let newId := fresh_id (generated sc1) in
      let newName := getUniqueName sc1 (name obj) None in
      let newObj := mkCADObject newId newName (type obj) (add_one_and_half x, y, z)
                      (rotation obj) (scale obj) (color obj) (args obj) (Some false)
                      (visible obj) (geometryData obj) in
      mkScene (map_set newId newObj (sobjects sc1)) (history sc1) (redoStack sc1)
              (S (generated sc1))
  end.

End Scene.

(** [AIActionType] and [AICommand]; [objectData] is a [Partial<CADObject>]
    whose fields are [None] when [undefined] or [null]. *)
Inductive AIActionType : Type := CREATE | UPDATE | DELETE | CLEAR | UNDO | REDO | FOCUS.

Record PartialCAD : Type := mkPartial {
  p_id : option string;
  p_name : option string;
  p_type : option ShapeType;
  p_position : option vec3;
  p_rotation : option vec3;
  p_scale : option vec3;
  p_color : option string;
  p_args : option (list num);
  p_selected : option bool;
  p_visible : option bool;
  p_geometryData : option gdata
}.

Record AICommand : Type := mkCommand {
  action : AIActionType;
  targetId : option string;
  objectData : option PartialCAD
}.

(** [a || b] on optional strings ([""] is falsy). *)
Definition str_truthy (o : option string) : bool :=
  match o with Some s => negb (String.eqb s "") | None => false end.

Definition opt_or (a b : option string) : option string := if str_truthy a then a else b.

Definition or_default {A} (o : option A) (d : A) : A :=
  match o with Some x => x | None => d end.

Definition str_or (o : option string) (d : string) : string :=
  match o with Some s => if String.eqb s "" then d else s | None => d end.

Definition modifies (a : AIActionType) : bool :=
  match a with CREATE | UPDATE | DELETE | CLEAR => true | _ => false end.

Definition undo (sc : scene) : scene :=
  match rev (history sc) with
  | [] => sc
  | previousState :: older =>
      loadScene previousState
        (mkScene (sobjects sc) (rev older) (redoStack sc ++ [exportScene sc]) (generated sc))
  end.

Definition redo (sc : scene) : scene :=
  match rev (redoStack sc) with
  | [] => sc
  | nextState :: older =>
      loadScene nextState
        (mkScene (sobjects sc) (history sc ++ [exportScene sc]) (rev older) (generated sc))
  end.

Section Commands.

Variable fresh_id : nat -> string.

(** The [UPDATE] merge [{ ...existing, ...cleanUpdates }]. *)
Definition merge_update (sc : scene) (tid : string) (existing : CADObject) (d : PartialCAD)
  : CADObject :=
  let nm := match p_name d with
            | Some s => if String.eqb s "" then s else getUniqueName sc s (Some tid)
            | None => name existing
            end in
  mkCADObject (or_default (p_id d) (id existing)) nm
    (or_default (p_type d) (type existing))
    (or_default (p_position d) (position existing))
    (or_default (p_rotation d) (rotation existing))
    (or_default (p_scale d) (scale existing))
    (or_default (p_color d) (color existing))
    (match p_args d with Some a => Some a | None => args existing end)
    (match p_selected d with Some b => Some b | None => selected existing end)
    (match p_visible d with Some b => Some b | None => visible existing end)
    (match p_geometryData d with Some g => Some g | None => geometryData existing end).

(** The object a CREATE builds: unique name, defaults for missing fields. *)
Definition created_object (sc : scene) (newId : string) (d : PartialCAD) : CADObject :=
  mkCADObject newId (getUniqueName sc (str_or (p_name d) "Object") None)
    (or_default (p_type d) BOX)
    (or_default (p_position d) zero3)
    (or_default (p_rotation d) zero3)
    (or_default (p_scale d) one3)
    (str_or (p_color d) "#3b82f6")
    (Some (or_default (p_args d) []))
    (Some false)
    (Some (match p_visible d with Some false => false | _ => true end))
    None.

(** One iteration of [commands.forEach]. *)
Definition apply_command (sc : scene) (cmd : AICommand) : scene :=
  let tid := opt_or (targetId cmd) (match objectData cmd with
                                    | Some d => p_id d
                                    | None => None
                                    end) in
  match action cmd with
  | CREATE =>
      match objectData cmd with
      | None => sc
      | Some d =>
          let chosen := opt_or (p_id d) tid in
          let '(newId, gen) := if str_truthy chosen
                               then (or_default chosen "", generated sc)
                               else (fresh_id (generated sc), S (generated sc)) in
          mkScene (map_set newId (created_object sc newId d) (sobjects sc))
                  (history sc) (redoStack sc) gen
      end
  | UPDATE =>
      match tid with
      | Some t =>
          if str_truthy tid then
            match map_get t (sobjects sc) with
            | Some existing =>
                let d := or_default (objectData cmd)
                           (mkPartial None None None None None None None None None None None) in
                set_objects sc (map_set t (merge_update sc t existing d) (sobjects sc))
            | None => sc
            end
          else sc
      | None => sc
      end
  | DELETE =>
      match tid with
      | Some t => if str_truthy tid then set_objects sc (map_delete t (sobjects sc)) else sc
      | None => sc
      end
  | CLEAR => set_objects sc []
  | UNDO => undo sc
  | REDO => redo sc
  | FOCUS => sc
  end.

(** [processCommands]: one [saveState] for the batch when any command is a
    CREATE, UPDATE, DELETE or CLEAR, then the commands in order. *)
Definition processCommands (commands : list AICommand) (sc : scene) : scene :=
  let sc1 := if existsb (fun c => modifies (action c)) commands then saveState sc else sc in
  fold_left apply_command commands sc1.

End Commands.

(* ------------------------------------------------------------------ *)
(** ** Scripts used below *)

(** [const a = Box(); Add(a, "Cube"); const b = Box(); Add(b, "Cube");] *)
Definition two_cubes : stmt :=
  SSeq (SDecl "a" (EBox None None None))
    (SSeq (SExpr (EAdd (EVar "a") "Cube"))
      (SSeq (SDecl "b" (EBox None None None))
        (SExpr (EAdd (EVar "b") "Cube")))).


(** [while (true) {}] *)
Definition forever : stmt := SWhile (ELit (LBool true)) SSkip.

(** An operand a script leaves out: [null] or [undefined]. *)
Definition absent (v : value) : Prop := v = VNull \/ v = VUndefined.

(** ** Sequences of scene operations *)

(** The public entry points of [SceneManager] that change it. *)
Inductive scene_op : Type :=
| OpRename (objId newName : string)
| OpDuplicate (objId : string)
| OpProcess (commands : list AICommand)
| OpUndo
| OpRedo.

Section Ops.

Variable fresh_id : nat -> string.

Definition step (sc : scene) (op : scene_op) : scene :=
  match op with
  | OpRename i n => renameObject i n sc
  | OpDuplicate i => duplicateObject fresh_id i sc
  | OpProcess cmds => processCommands fresh_id cmds sc
  | OpUndo => undo sc
  | OpRedo => redo sc
  end.

Definition run (ops : list scene_op) (sc : scene) : scene := fold_left step ops sc.

(** The states before each operation of [ops]. *)
Fixpoint pre_states (sc : scene) (ops : list scene_op) : list scene :=
  match ops with
  | [] => []
  | op :: ops' => sc :: pre_states (step sc op) ops'
  end.

Definition is_undo_redo (c : AICommand) : bool :=
  match action c with UNDO | REDO => true | _ => false end.

(** The operation calls [saveState] in [sc] and contains no UNDO or REDO:
    a rename that changes the name, a duplicate of a present object, a
    batch with a CREATE, UPDATE, DELETE or CLEAR. *)
Definition mutating (sc : scene) (op : scene_op) : bool :=
  match op with
  | OpRename i n =>
      match getObject sc i with Some o => negb (String.eqb (name o) n) | None => false end
  | OpDuplicate i => match getObject sc i with Some _ => true | None => false end
  | OpProcess cmds => existsb (fun c => modifies (action c)) cmds && forallb (fun c => negb (is_undo_redo c)) cmds
  | OpUndo | OpRedo => false
  end.

Fixpoint all_mutating (sc : scene) (ops : list scene_op) : bool :=
  match ops with
  | [] => true
  | op :: ops' => mutating sc op && all_mutating (step sc op) ops'
  end.

End Ops.

(** A number that [JSON.stringify] writes as itself. *)
Definition json_safe_num (n : num) : bool :=
  match n with NFin _ | NNull => true | NNaN | NInf _ => false end.

Definition json_safe_vec (v : vec3) : bool :=
  let '(x, y, z) := v in json_safe_num x && json_safe_num y && json_safe_num z.

(** No NaN or infinite number, and no live [BufferGeometry]. *)
Definition json_safe (o : CADObject) : bool :=
  json_safe_vec (position o) && json_safe_vec (rotation o) && json_safe_vec (scale o) &&
  match args o with Some l => forallb json_safe_num l | None => true end &&
  match geometryData o with Some (GDBuffer _) => false | _ => true end.

(** A CREATE command with the given id and name. *)
Definition create_cmd (i n : string) : AICommand :=
  mkCommand CREATE None
    (Some (mkPartial (Some i) (Some n) None None None None None None None None None)).

(** Scenario D: create ["A"] named ["X"], rename it to ["Y"], then ["Z"]. *)
Definition scenario_D (fresh_id : nat -> string) (sc : scene) : scene :=
  run fresh_id [OpProcess [create_cmd "A" "X"]; OpRename "A" "Y"; OpRename "A" "Z"] sc.

(** A CREATE whose position holds [Infinity] ([JSON.parse] reads [1e400]
    as [Infinity]). *)
Definition infinite_cmd : AICommand :=
  mkCommand CREATE None
    (Some (mkPartial (Some "A") (Some "Far") None (Some (NInf false, NFin 0%Q, NFin 0%Q))
                     None None None None None None None)).

(** Two objects, then an UPDATE that writes ["B"] into the [id] field of
    the object stored under ["A"]. *)
Definition id_clash_cmds : list AICommand :=
  [create_cmd "A" "a"; create_cmd "B" "b";
   mkCommand UPDATE (Some "A")
     (Some (mkPartial (Some "B") None None None None None None None None None None))].

(** Twenty-one batches, each creating one object with a new id. *)
Definition twenty_one_creates : list scene_op :=
  map (fun k => OpProcess [create_cmd (nat_to_string k) "Object"]) (seq 0 21).

(** Auxiliary views used by the proofs. *)








Definition keys_nodup (sc : scene) : Prop := NoDup (map fst (sobjects sc)).

Definition hist_inv (sc : scene) : Prop :=
  length (history sc) + length (redoStack sc) <= maxHistory.

Definition push_all (h xs : list snapshot) : list snapshot :=
  fold_left (fun acc x => bound_history (acc ++ [x])) xs h.

(** No key twice. *)
Fixpoint str_nodup (l : list string) : bool :=
  match l with
  | [] => true
  | x :: l' => negb (str_mem x l') && str_nodup l'
  end.

(** A scene whose snapshot reads back as itself: keys distinct, each
    object stored under its own [id], no NaN, infinite number or live
    [BufferGeometry]. *)
Definition scene_wf (sc : scene) : bool :=
  str_nodup (map fst (sobjects sc)) &&
  forallb (fun p => String.eqb (fst p) (id (snd p)) && json_safe (snd p)) (sobjects sc).

Definition is_focus (c : AICommand) : bool :=
  match action c with FOCUS => true | _ => false end.

(** Two objects ["A"] named ["X"] and ["B"] named ["Y"]. *)
Definition two_objects : scene :=
  processCommands (fun _ => "gen") [create_cmd "A" "X"; create_cmd "B" "Y"] empty_scene.

(** The builtin call for each CSG operation. *)
Definition csg_expr (op : csg_op) : expr -> expr -> expr :=
  match op with
  | ADDITION => EUnion
  | SUBTRACTION => ESubtract
  | INTERSECTION => EIntersect
  end.

(* ================================================================== *)
(** * Proofs *)

(** ** Name resolution *)

Lemma str_mem_In (x : string) (l : list string) : str_mem x l = true <-> In x l.
Proof.
  induction l as [|a l IH]; simpl.
  - split; [discriminate | contradiction].
  - rewrite orb_true_iff, IH, String.eqb_eq. split; intros [H|H]; auto.
Qed.

Lemma frame_lookup_map (f : string -> binding) (l : list string) (x : string) :
  frame_lookup (map (fun y => (y, f y)) l) x = if str_mem x l then Some (f x) else None.
Proof.
  unfold frame_lookup. induction l as [|a l IH]; simpl; [reflexivity|].
  destruct (String.eqb x a) eqn:E; simpl.
  - apply String.eqb_eq in E. subst. reflexivity.
  - exact IH.
Qed.

(** C1 (counterexample): before any statement of the script runs, [ctx]
    (the whole [CADContext]) and [globalThis] resolve, and neither is a
    builtin. *)
Lemma C1_ctx_and_globals_visible :
  resolve [] "ctx" = Some BContext /\ ~ In "ctx" builtin_table /\
  resolve [] "globalThis" = Some (BGlobal "globalThis") /\ ~ In "globalThis" builtin_table /\
  resolve ["fetch"] "fetch" = Some (BGlobal "fetch").
Proof.
  repeat split; try reflexivity; simpl; intuition discriminate.
Qed.

Lemma resolve_eq (host_globals : list string) (x : string) :
  resolve host_globals x =
    if str_mem x builtin_table then Some (BBuiltin x)
    else if String.eqb x "ctx" then Some BContext
    else if String.eqb x "arguments" then Some BArguments
    else if str_mem x (ecmascript_globals ++ host_globals) then Some (BGlobal x)
    else None.
Proof.
  unfold resolve, scope_chain. cbn [chain_lookup].
  rewrite frame_lookup_map.
  destruct (str_mem x builtin_table); [reflexivity|].
  unfold frame_lookup at 1. cbn [find fst].
  destruct (String.eqb x "ctx"); [reflexivity|].
  destruct (String.eqb x "arguments"); [reflexivity|].
  cbn [chain_lookup]. rewrite frame_lookup_map.
  destruct (str_mem x (ecmascript_globals ++ host_globals)); reflexivity.
Qed.

(** C1 (amended): a name resolves in the script exactly when it is one of
    the eleven builtins (resolving to that builtin), [ctx] (resolving to the
    [CADContext]), [arguments], or a global binding of the realm or the
    host. *)
Theorem C1_scope_of_script (host_globals : list string) (x : string) :
  (resolve host_globals x <> None <->
     In x builtin_table \/ x = "ctx" \/ x = "arguments" \/
     In x (ecmascript_globals ++ host_globals)) /\
  (In x builtin_table -> resolve host_globals x = Some (BBuiltin x)) /\
  resolve host_globals "ctx" = Some BContext.
Proof.
  split; [|split].
  - rewrite resolve_eq.
    destruct (str_mem x builtin_table) eqn:B.
    { apply str_mem_In in B. split; [auto | discriminate]. }
    destruct (String.eqb x "ctx") eqn:C.
    { apply String.eqb_eq in C. split; [auto | discriminate]. }
    destruct (String.eqb x "arguments") eqn:A.
    { apply String.eqb_eq in A. split; [auto | discriminate]. }
    destruct (str_mem x (ecmascript_globals ++ host_globals)) eqn:G.
    { apply str_mem_In in G. split; [auto | discriminate]. }
    apply String.eqb_neq in C, A.
    split; [congruence|].
    intros [H|[H|[H|H]]]; try contradiction; apply str_mem_In in H; congruence.
  - intros H. rewrite resolve_eq. apply str_mem_In in H. rewrite H. reflexivity.
  - reflexivity.
Qed.

(** ** Boolean operations *)

(** C2 (counterexample): [Union(null, null)] returns [null] and raises
    nothing. *)
Lemma C2_both_null_no_error :
  Union init_sstate VNull VNull = Ok (VNull, init_sstate) /\
  Subtract init_sstate VUndefined VNull = Ok (VNull, init_sstate).
Proof. split; reflexivity. Qed.

(** C2 (amended): for each boolean operation, an absent first operand
    makes it return the second operand unchanged, and an absent second
    operand with a truthy first one makes it return the first; nothing is
    raised in either case, also when both are absent. *)
Theorem C2_boolean_absent_operand (op : csg_op) (st : sstate) (a b : value) :
  (absent a -> boolean_op op st a b = Ok (b, st)) /\
  (absent b -> truthy a = true -> boolean_op op st a b = Ok (a, st)).
Proof.
  unfold boolean_op, js_or. split.
  - intros [-> | ->]; reflexivity.
  - intros Hb Ha. rewrite Ha. destruct Hb as [-> | ->]; reflexivity.
Qed.

Lemma C2_witness :
  boolean_op ADDITION init_sstate VNull (VBrush 0) = Ok (VBrush 0, init_sstate) /\
  boolean_op SUBTRACTION init_sstate (VBrush 0) VUndefined = Ok (VBrush 0, init_sstate).
Proof.
  split.
  - apply (C2_boolean_absent_operand ADDITION init_sstate VNull (VBrush 0)). left. reflexivity.
  - apply (C2_boolean_absent_operand SUBTRACTION init_sstate (VBrush 0) VUndefined).
    + right. reflexivity.
    + reflexivity.
Defined.

(** ** Primitive constructors *)

(** C6 (counterexample): [Box(-1)] and [Sphere(NaN)] build brushes. *)
Lemma C6_invalid_dimensions_build_brushes :
  Box init_sstate (Some (NFin (-1)%Q)) None None =
    (VBrush 0, mkSState [new_brush (BoxGeometry (NFin (-1)%Q) (NFin 1%Q) (NFin 1%Q)) "BOX"] [] []) /\
  Sphere init_sstate (Some NNaN) =
    (VBrush 0, mkSState [new_brush (SphereGeometry NNaN 32 32) "SPHERE"] [] []).
Proof. split; reflexivity. Qed.

(** C6 (amended): the primitive calls never raise; each allocates a brush
    whose geometry takes the arguments as given (negative and non-finite
    included), an omitted one defaulting to 1, or 0.5 for radii. *)
Theorem C6_primitives_total (hex_of_style : string -> option string) (now : nat -> Z)
  (st : sstate) (w h d : option num) :
  eval_expr hex_of_style now st (EBox w h d) =
    Ok (VBrush (length (heap st)),
        mkSState (heap st ++ [new_brush (BoxGeometry (default_num w (NFin 1%Q))
                                 (default_num h (NFin 1%Q)) (default_num d (NFin 1%Q))) "BOX"])
                 (env st) (objects st)) /\
  eval_expr hex_of_style now st (ESphere w) =
    Ok (VBrush (length (heap st)),
        mkSState (heap st ++ [new_brush (SphereGeometry (default_num w half) 32 32) "SPHERE"])
                 (env st) (objects st)) /\
  eval_expr hex_of_style now st (ECylinder w h d) =
    Ok (VBrush (length (heap st)),
        mkSState (heap st ++ [new_brush (CylinderGeometry (default_num w half) (default_num h half)
                                 (default_num d (NFin 1%Q)) 32) "CYLINDER"])
                 (env st) (objects st)).
Proof. repeat split. Qed.

(** ** Names of finalized objects *)

(** C4: the script path keeps the name given to [Add]; two boxes added as
    ["Cube"] are both named ["Cube"]. *)
Theorem C4_two_cubes_same_name (hex_of_style : string -> option string) (now : nat -> Z) :
  option_map (fun o => match o with Returned l => map name l | Thrown _ => [] end)
    (execute hex_of_style now 4 two_cubes) = Some ["Cube"; "Cube"].
Proof. reflexivity. Qed.

(** ** No execution budget *)

Lemma exec_while_true_diverges (hex_of_style : string -> option string) (now : nat -> Z) (body : stmt) :
  (forall f s e, exec hex_of_style now f s body <> Some (Exc e)) ->
  forall fuel st, exec hex_of_style now fuel st (SWhile (ELit (LBool true)) body) = None.
Proof.
  intros Hbody fuel. induction fuel as [|f IH]; intros st; [reflexivity|].
  simpl. destruct (exec hex_of_style now f st body) as [[st2|e]|] eqn:E.
  - apply IH.
  - exfalso. exact (Hbody f st e E).
  - reflexivity.
Qed.

(** C5 (counterexample): [while (true) {}] has no outcome at any budget:
    no [Timeout], nor anything else. *)
Lemma C5_forever_never_returns :
  ~ exists fuel o, execute (fun s => Some s) (fun _ => 0%Z) fuel forever = Some o.
Proof.
  intros [fuel [o H]]. unfold execute, forever in H.
  rewrite exec_while_true_diverges in H; [discriminate|].
  intros [|f] s e; simpl; discriminate.
Qed.

(** C5 (amended): [execute] enforces no step or time budget and has no
    [Timeout] error: the script [while (true) {}] never finishes; at every
    budget it neither returns a result list nor throws. *)
Theorem C5_no_budget (hex_of_style : string -> option string) (now : nat -> Z) (fuel : nat) :
  execute hex_of_style now fuel forever = None.
Proof.
  unfold execute, forever. rewrite exec_while_true_diverges; [reflexivity|].
  intros [|f] s e; simpl; discriminate.
Qed.

(** ** Determinism of a run *)












(** *** The ids [Add] assigns *)











(** ** The Map operations *)

Lemma map_get_set_same (k : string) (v : CADObject) (m : objmap) :
  map_get k (map_set k v m) = Some v.
Proof.
  induction m as [|[k' v'] m IH]; simpl.
  - rewrite String.eqb_refl. reflexivity.
  - destruct (String.eqb k k') eqn:E; simpl.
    + rewrite String.eqb_refl. reflexivity.
    + rewrite E. exact IH.
Qed.

Lemma map_get_set_other (k k' : string) (v : CADObject) (m : objmap) :
  k' <> k -> map_get k' (map_set k v m) = map_get k' m.
Proof.
  intros Hne. induction m as [|[k0 v0] m IH]; simpl.
  - apply String.eqb_neq in Hne. rewrite Hne. reflexivity.
  - destruct (String.eqb k k0) eqn:E; simpl.
    + apply String.eqb_eq in E. subst k0.
      apply String.eqb_neq in Hne. rewrite Hne. reflexivity.
    + destruct (String.eqb k' k0); [reflexivity | exact IH].
Qed.

Lemma map_set_keys (k : string) (v old : CADObject) (m : objmap) :
  map_get k m = Some old -> map fst (map_set k v m) = map fst m.
Proof.
  induction m as [|[k' v'] m IH]; simpl; [discriminate|].
  destruct (String.eqb k k') eqn:E; simpl.
  - apply String.eqb_eq in E. subst. reflexivity.
  - intros H. f_equal. apply IH. exact H.
Qed.

(** ** CREATE on a present id *)

(** C10: a one-command batch whose CREATE carries an id (in [objectData.id],
    or in [targetId] when [objectData.id] is missing or empty) that is
    already in the scene overwrites the stored object in place with the
    newly built one under the same key; no id is generated, the other
    entries and the key list are unchanged, and the command processor has
    no error result. *)
Theorem C10_create_replaces_existing (fresh_id : nat -> string) (sc : scene) (cmd : AICommand)
  (d : PartialCAD) (k : string) (old : CADObject) :
  action cmd = CREATE -> objectData cmd = Some d ->
  (p_id d = Some k \/ (str_truthy (p_id d) = false /\ targetId cmd = Some k)) ->
  k <> "" -> getObject sc k = Some old ->
  let sc' := processCommands fresh_id [cmd] sc in
  sobjects sc' = map_set k (created_object (saveState sc) k d) (sobjects sc) /\
  getObject sc' k = Some (created_object (saveState sc) k d) /\
  map fst (sobjects sc') = map fst (sobjects sc) /\
  (forall k', k' <> k -> getObject sc' k' = getObject sc k') /\
  generated sc' = generated sc.
Proof.
  intros Ha Hd Hk Hne Hold sc'.
  assert (Htruthy : str_truthy (Some k) = true).
  { simpl. apply String.eqb_neq in Hne. rewrite Hne. reflexivity. }
  assert (Hchosen : opt_or (p_id d) (opt_or (targetId cmd) (p_id d)) = Some k).
  { destruct Hk as [Hp | [Hp Ht]].
    - unfold opt_or at 1. rewrite Hp, Htruthy. reflexivity.
    - unfold opt_or at 1. rewrite Hp. rewrite Ht. unfold opt_or. rewrite Htruthy. reflexivity. }
  assert (Hsc' : sc' = mkScene (map_set k (created_object (saveState sc) k d) (sobjects sc))
                         (history (saveState sc)) (redoStack (saveState sc)) (generated sc)).
  { unfold sc', processCommands. simpl. rewrite Ha. simpl.
    unfold apply_command. rewrite Ha, Hd, Hchosen, Htruthy. reflexivity. }
  rewrite Hsc'. unfold getObject in *. simpl.
  repeat split.
  - apply map_get_set_same.
  - eapply map_set_keys. exact Hold.
  - intros k' Hk'. apply map_get_set_other. exact Hk'.
Qed.

Lemma C10_witness :
  let sc := processCommands (fun _ => "gen") [create_cmd "A" "Cube"] empty_scene in
  let sc' := processCommands (fun _ => "gen") [create_cmd "A" "Ball"] sc in
  getObject sc' "A" = Some (created_object (saveState sc) "A"
                              (mkPartial (Some "A") (Some "Ball") None None None None None None None None None)) /\
  map fst (sobjects sc') = ["A"].
Proof.
  intros sc sc'.
  destruct (C10_create_replaces_existing (fun _ => "gen") sc (create_cmd "A" "Ball")
              (mkPartial (Some "A") (Some "Ball") None None None None None None None None None)
              "A" (created_object (saveState empty_scene) "A"
                     (mkPartial (Some "A") (Some "Cube") None None None None None None None None None)))
    as [_ [Hget [Hkeys _]]].
  - reflexivity.
  - reflexivity.
  - left. reflexivity.
  - discriminate.
  - vm_compute. reflexivity.
  - split; [exact Hget | transitivity (map fst (sobjects sc)); [exact Hkeys | vm_compute; reflexivity]].
Defined.

(** ** Export and import *)

(** C9 (counterexample): after CREATE A, CREATE B and an UPDATE of A
    carrying [id: "B"], the scene has two objects; the snapshot holds two
    records with id ["B"], and importing it leaves one.  And an object
    whose position is [Infinity] comes back with [null] there. *)
Lemma C9_roundtrip_fails :
  let sc := run (fun _ => "gen") [OpProcess id_clash_cmds] empty_scene in
  let sc2 := run (fun _ => "gen") [OpProcess [infinite_cmd]] empty_scene in
  map fst (sobjects sc) = ["A"; "B"] /\
  length (getObjects sc) = 2 /\
  length (getObjects (loadScene (exportScene sc) sc)) = 1 /\
  option_map position (getObject sc2 "A") = Some (NInf false, NFin 0%Q, NFin 0%Q) /\
  option_map position (getObject (loadScene (exportScene sc2) sc2) "A") = Some (NNull, NFin 0%Q, NFin 0%Q).
Proof. vm_compute. repeat split. Qed.

Lemma json_num_safe (n : num) : json_safe_num n = true -> json_num n = n.
Proof. destruct n; simpl; congruence. Qed.

Lemma json_vec_safe (v : vec3) : json_safe_vec v = true -> json_vec v = v.
Proof.
  destruct v as [[x y] z]. simpl. rewrite !andb_true_iff. intros [[Hx Hy] Hz].
  rewrite !json_num_safe by assumption. reflexivity.
Qed.

Lemma json_obj_safe (o : CADObject) : json_safe o = true -> json_obj o = o.
Proof.
  destruct o as [i n t p r s c a sel vis g]. unfold json_safe, json_obj; simpl.
  rewrite !andb_true_iff. intros [[[[Hp Hr] Hs] Ha] Hg].
  rewrite !json_vec_safe by assumption.
  f_equal.
  - destruct a as [l|]; [|reflexivity]. simpl. f_equal.
    rewrite forallb_forall in Ha.
    rewrite <- (map_id l) at 2. apply map_ext_in. intros x Hx. apply json_num_safe, Ha, Hx.
  - destruct g as [[g|g|g]|]; simpl in *; congruence.
Qed.

Lemma In_keys_map_set (x k : string) (v : CADObject) (m : objmap) :
  In x (map fst (map_set k v m)) -> x = k \/ In x (map fst m).
Proof.
  induction m as [|[k' v'] m IH]; simpl.
  - intuition.
  - destruct (String.eqb k k') eqn:E; simpl.
    + apply String.eqb_eq in E. subst. intuition.
    + intros [H|H]; [auto|]. destruct (IH H); auto.
Qed.

Lemma map_set_nodup (k : string) (v : CADObject) (m : objmap) :
  NoDup (map fst m) -> NoDup (map fst (map_set k v m)).
Proof.
  induction m as [|[k' v'] m IH]; simpl; intros H.
  - constructor; [intuition | constructor].
  - inversion H as [|? ? Hnot Hnd]; subst.
    destruct (String.eqb k k') eqn:E; simpl.
    + apply String.eqb_eq in E. subst. constructor; assumption.
    + constructor; [|apply IH; exact Hnd].
      intros Hin. destruct (In_keys_map_set _ _ _ _ Hin) as [Heq|Hin'].
      * subst. rewrite String.eqb_refl in E. discriminate.
      * contradiction.
Qed.

Lemma filter_keys_nodup (p : string * CADObject -> bool) (m : objmap) :
  NoDup (map fst m) -> NoDup (map fst (filter p m)).
Proof.
  induction m as [|[k v] m IH]; simpl; intros H; [constructor|].
  inversion H as [|? ? Hnot Hnd]; subst.
  destruct (p (k, v)); simpl; [|apply IH; exact Hnd].
  constructor; [|apply IH; exact Hnd].
  intros Hin. apply Hnot. apply in_map_iff in Hin as [[k0 v0] [Hk Hin]].
  apply filter_In in Hin as [Hin _]. apply in_map_iff. exists (k0, v0). split; [exact Hk | exact Hin].
Qed.

Lemma load_nodup (snap : snapshot) (sc : scene) : keys_nodup (loadScene snap sc).
Proof.
  unfold keys_nodup, loadScene, set_objects; simpl.
  assert (Hgen : forall acc, NoDup (map fst acc) ->
            NoDup (map fst (fold_left (fun m o => map_set (id o) o m) snap acc))).
  { induction snap as [|o snap IH]; simpl; intros acc Hacc; [exact Hacc|].
    apply IH. apply map_set_nodup. exact Hacc. }
  apply Hgen. constructor.
Qed.

Lemma saveState_objects (sc : scene) : sobjects (saveState sc) = sobjects sc.
Proof. reflexivity. Qed.

Lemma undo_nodup (sc : scene) : keys_nodup sc -> keys_nodup (undo sc).
Proof. unfold undo. destruct (rev (history sc)); [auto | intros _; apply load_nodup]. Qed.

Lemma redo_nodup (sc : scene) : keys_nodup sc -> keys_nodup (redo sc).
Proof. unfold redo. destruct (rev (redoStack sc)); [auto | intros _; apply load_nodup]. Qed.

Lemma apply_command_nodup (fresh_id : nat -> string) (sc : scene) (c : AICommand) :
  keys_nodup sc -> keys_nodup (apply_command fresh_id sc c).
Proof.
  intros H. unfold apply_command.
  destruct (action c).
  - destruct (objectData c); [|exact H].
    destruct (if str_truthy _ then _ else _) as [newId gen].
    apply map_set_nodup. exact H.
  - destruct (opt_or _ _) as [t|] eqn:Et; [|exact H].
    destruct (str_truthy (Some t)); [|exact H].
    destruct (map_get t (sobjects sc)); [|exact H].
    apply map_set_nodup. exact H.
  - destruct (opt_or _ _) as [t|]; [|exact H].
    destruct (str_truthy (Some t)); [|exact H].
    apply filter_keys_nodup. exact H.
  - constructor.
  - apply undo_nodup. exact H.
  - apply redo_nodup. exact H.
  - exact H.
Qed.

Lemma step_nodup (fresh_id : nat -> string) (sc : scene) (op : scene_op) :
  keys_nodup sc -> keys_nodup (step fresh_id sc op).
Proof.
  intros H. destruct op as [i n | i | cmds | |]; simpl.
  - unfold renameObject. destruct (getObject sc i); [|exact H].
    destruct (String.eqb _ n); [exact H|].
    apply map_set_nodup. exact H.
  - unfold duplicateObject. destruct (getObject sc i); [|exact H].
    destruct (position c) as [[x y] z]. apply map_set_nodup. exact H.
  - unfold processCommands.
    assert (H1 : keys_nodup (if existsb (fun c => modifies (action c)) cmds then saveState sc else sc))
      by (destruct (existsb _ _); exact H).
    revert H1. generalize (if existsb (fun c => modifies (action c)) cmds then saveState sc else sc).
    induction cmds as [|c cmds IH]; simpl; intros s Hs; [exact Hs|].
    apply IH. apply apply_command_nodup. exact Hs.
  - apply undo_nodup. exact H.
  - apply redo_nodup. exact H.
Qed.

Lemma run_nodup (fresh_id : nat -> string) (ops : list scene_op) :
  forall sc, keys_nodup sc -> keys_nodup (run fresh_id ops sc).
Proof.
  induction ops as [|op ops IH]; simpl; intros sc H; [exact H|].
  apply IH. apply step_nodup. exact H.
Qed.

Lemma map_set_fresh (k : string) (v : CADObject) (m : objmap) :
  ~ In k (map fst m) -> map_set k v m = m ++ [(k, v)].
Proof.
  induction m as [|[k' v'] m IH]; simpl; intros H; [reflexivity|].
  destruct (String.eqb k k') eqn:E.
  - apply String.eqb_eq in E. subst. exfalso. apply H. left. reflexivity.
  - f_equal. apply IH. intros Hin. apply H. right. exact Hin.
Qed.

Lemma load_values (m acc : objmap) :
  NoDup (map fst (acc ++ m)) -> (forall k o, In (k, o) m -> k = id o) ->
  fold_left (fun a o => map_set (id o) o a) (map snd m) acc = acc ++ m.
Proof.
  revert acc. induction m as [|[k o] m IH]; simpl; intros acc Hnd Hid.
  - rewrite app_nil_r. reflexivity.
  - rewrite <- (Hid k o (or_introl eq_refl)).
    rewrite map_set_fresh.
    + rewrite IH.
      * rewrite <- app_assoc. reflexivity.
      * rewrite <- app_assoc. exact Hnd.
      * intros k' o' Hin. apply Hid. right. exact Hin.
    + rewrite map_app in Hnd. simpl in Hnd.
      apply NoDup_remove_2 in Hnd. intros Hin. apply Hnd. apply in_or_app. left. exact Hin.
Qed.

(** C9 (amended): in every state reachable from the empty scene through
    the public operations, if each object sits under its own [id] and has
    no NaN or infinite number and no live [BufferGeometry], then
    [loadScene(exportScene())] gives back the same scene: same entries,
    keys, order and fields. *)
Theorem C9_roundtrip_reachable (fresh_id : nat -> string) (ops : list scene_op) :
  let sc := run fresh_id ops empty_scene in
  (forall k o, In (k, o) (sobjects sc) -> k = id o /\ json_safe o = true) ->
  loadScene (exportScene sc) sc = sc.
Proof.
  intros sc Hwf.
  assert (Hnd : keys_nodup sc) by (apply run_nodup; constructor).
  unfold loadScene, exportScene, set_objects, map_values.
  assert (Hexp : map json_obj (map snd (sobjects sc)) = map snd (sobjects sc)).
  { rewrite <- (map_id (map snd (sobjects sc))) at 2. apply map_ext_in.
    intros o Ho. apply in_map_iff in Ho as [[k o'] [Heq Hin]]. simpl in Heq. subst o'.
    apply json_obj_safe. apply (Hwf k o Hin). }
  rewrite Hexp. rewrite load_values.
  - destruct sc as [m h r g]. reflexivity.
  - exact Hnd.
  - intros k o Hin. apply (Hwf k o Hin).
Qed.

Lemma C9_witness :
  let sc := run (fun _ => "gen") [OpProcess [create_cmd "A" "a"; create_cmd "B" "b"]] empty_scene in
  loadScene (exportScene sc) sc = sc.
Proof.
  intros sc.
  apply (C9_roundtrip_reachable (fun _ => "gen") [OpProcess [create_cmd "A" "a"; create_cmd "B" "b"]]).
  vm_compute. intros k o [H|[H|[]]]; injection H as <- <-; split; reflexivity.
Defined.

(** ** Undo after renames *)

Lemma bound_history_suffix (l s : list snapshot) (x : snapshot) :
  length s < maxHistory -> exists l', bound_history ((l ++ s) ++ [x]) = l' ++ s ++ [x].
Proof.
  intros Hs. unfold bound_history.
  destruct (Nat.ltb maxHistory (length ((l ++ s) ++ [x]))) eqn:E.
  - apply Nat.ltb_lt in E. destruct l as [|a l].
    + simpl in E. rewrite length_app in E. simpl in E. lia.
    + exists l. simpl. rewrite app_assoc. reflexivity.
  - exists l. rewrite app_assoc. reflexivity.
Qed.

Lemma saveState_history_suffix (sc : scene) (l s : list snapshot) :
  history sc = l ++ s -> length s < maxHistory ->
  exists l', history (saveState sc) = l' ++ s ++ [exportScene sc].
Proof. intros H Hs. simpl. rewrite H. apply bound_history_suffix. exact Hs. Qed.

Lemma undo_app (sc : scene) (h : list snapshot) (x : snapshot) :
  history sc = h ++ [x] ->
  undo sc = loadScene x (mkScene (sobjects sc) h (redoStack sc ++ [exportScene sc]) (generated sc)).
Proof.
  intros H. unfold undo. rewrite H, rev_app_distr. simpl. rewrite rev_involutive. reflexivity.
Qed.

Lemma rename_history (sc : scene) (i n : string) (o : CADObject) :
  getObject sc i = Some o -> name o <> n -> history (renameObject i n sc) = history (saveState sc).
Proof.
  intros Ho Hn. unfold renameObject. rewrite Ho.
  apply String.eqb_neq in Hn. rewrite Hn. reflexivity.
Qed.

(** C7: in an empty scene, whatever the history stacks hold: create ["A"]
    named ["X"], rename it to ["Y"], then to ["Z"]; one undo brings back
    ["Y"], a second one ["X"]. *)
Theorem C7_undo_renames (fresh_id : nat -> string) (sc : scene) :
  sobjects sc = [] ->
  option_map name (getObject (undo (scenario_D fresh_id sc)) "A") = Some "Y" /\
  option_map name (getObject (undo (undo (scenario_D fresh_id sc))) "A") = Some "X".
Proof.
  intros Hm. destruct sc as [m h r g]. simpl in Hm. subst m.
  set (sc := mkScene [] h r g).
  set (s1 := processCommands fresh_id [create_cmd "A" "X"] sc).
  set (s2 := renameObject "A" "Y" s1).
  assert (E : scenario_D fresh_id sc = renameObject "A" "Z" s2) by reflexivity.
  rewrite E.
  assert (H1 : history s1 ++ [] = history s1) by apply app_nil_r.
  destruct (saveState_history_suffix s1 (history s1) [] (eq_sym H1)) as [l2 Hl2];
    [unfold maxHistory; simpl; lia|].
  assert (H2 : history s2 = l2 ++ [exportScene s1]).
  { unfold s2. rewrite (rename_history s1 "A" "Y" (created_object (saveState sc) "A"
      (mkPartial (Some "A") (Some "X") None None None None None None None None None)));
      [exact Hl2 | reflexivity | discriminate]. }
  destruct (saveState_history_suffix s2 l2 [exportScene s1] H2) as [l3 Hl3];
    [unfold maxHistory; simpl; lia|].
  assert (Hget2 : option_map name (getObject s2 "A") = Some "Y") by (vm_compute; reflexivity).
  destruct (getObject s2 "A") as [o2|] eqn:Go2; [|discriminate].
  assert (H3 : history (renameObject "A" "Z" s2) = (l3 ++ [exportScene s1]) ++ [exportScene s2]).
  { rewrite (rename_history s2 "A" "Z" o2 Go2).
    - rewrite Hl3, <- app_assoc. reflexivity.
    - simpl in Hget2. injection Hget2 as ->. discriminate. }
  rewrite (undo_app _ _ _ H3).
  split; [vm_compute; reflexivity|].
  set (u := loadScene (exportScene s2) _).
  assert (Hu : history u = l3 ++ [exportScene s1]) by reflexivity.
  rewrite (undo_app _ _ _ Hu).
  vm_compute. reflexivity.
Qed.

Lemma C7_witness :
  option_map name (getObject (undo (scenario_D (fun _ => "gen") empty_scene)) "A") = Some "Y" /\
  option_map name (getObject (undo (undo (scenario_D (fun _ => "gen") empty_scene))) "A") = Some "X".
Proof. apply (C7_undo_renames (fun _ => "gen") empty_scene). reflexivity. Defined.

(** ** Bounded history *)

Lemma bound_history_length (h : list snapshot) :
  length h <= S maxHistory -> length (bound_history h) <= maxHistory.
Proof.
  unfold bound_history. destruct (Nat.ltb maxHistory (length h)) eqn:E.
  - apply Nat.ltb_lt in E. destruct h; simpl in *; lia.
  - apply Nat.ltb_ge in E. lia.
Qed.

Lemma saveState_inv (sc : scene) : hist_inv sc -> hist_inv (saveState sc).
Proof.
  unfold hist_inv. simpl. intros H. rewrite Nat.add_0_r.
  apply bound_history_length. rewrite length_app. simpl. lia.
Qed.

Lemma loadScene_stacks (snap : snapshot) (sc : scene) :
  history (loadScene snap sc) = history sc /\ redoStack (loadScene snap sc) = redoStack sc.
Proof. split; reflexivity. Qed.

Lemma undo_inv (sc : scene) : hist_inv sc -> hist_inv (undo sc).
Proof.
  unfold hist_inv, undo. destruct (rev (history sc)) as [|x older] eqn:E; [auto|].
  simpl. intros H.
  assert (L : length (history sc) = S (length older)).
  { rewrite <- length_rev, E. reflexivity. }
  rewrite length_rev, length_app. simpl. lia.
Qed.

Lemma redo_inv (sc : scene) : hist_inv sc -> hist_inv (redo sc).
Proof.
  unfold hist_inv, redo. destruct (rev (redoStack sc)) as [|x older] eqn:E; [auto|].
  simpl. intros H.
  assert (L : length (redoStack sc) = S (length older)).
  { rewrite <- length_rev, E. reflexivity. }
  rewrite length_rev, length_app. simpl. lia.
Qed.

Lemma apply_command_inv (fresh_id : nat -> string) (sc : scene) (c : AICommand) :
  hist_inv sc -> hist_inv (apply_command fresh_id sc c).
Proof.
  intros H. unfold apply_command.
  destruct (action c).
  - destruct (objectData c); [|exact H].
    destruct (if str_truthy _ then _ else _). exact H.
  - destruct (opt_or _ _) as [t|]; [|exact H].
    destruct (str_truthy (Some t)); [|exact H].
    destruct (map_get t (sobjects sc)); exact H.
  - destruct (opt_or _ _) as [t|]; [|exact H].
    destruct (str_truthy (Some t)); exact H.
  - exact H.
  - apply undo_inv. exact H.
  - apply redo_inv. exact H.
  - exact H.
Qed.

Lemma step_inv (fresh_id : nat -> string) (sc : scene) (op : scene_op) :
  hist_inv sc -> hist_inv (step fresh_id sc op).
Proof.
  intros H. destruct op as [i n | i | cmds | |]; simpl.
  - unfold renameObject. destruct (getObject sc i); [|exact H].
    destruct (String.eqb _ n); [exact H|]. apply (saveState_inv sc H).
  - unfold duplicateObject. destruct (getObject sc i); [|exact H].
    destruct (position c) as [[x y] z]. apply (saveState_inv sc H).
  - unfold processCommands.
    assert (H1 : hist_inv (if existsb (fun c => modifies (action c)) cmds then saveState sc else sc))
      by (destruct (existsb _ _); [apply saveState_inv|]; exact H).
    revert H1. generalize (if existsb (fun c => modifies (action c)) cmds then saveState sc else sc).
    induction cmds as [|c cmds IH]; simpl; intros s Hs; [exact Hs|].
    apply IH. apply apply_command_inv. exact Hs.
  - apply undo_inv. exact H.
  - apply redo_inv. exact H.
Qed.

Lemma run_inv (fresh_id : nat -> string) (ops : list scene_op) :
  forall sc, hist_inv sc -> hist_inv (run fresh_id ops sc).
Proof.
  induction ops as [|op ops IH]; simpl; intros sc H; [exact H|].
  apply IH. apply step_inv. exact H.
Qed.

Lemma fold_no_undo_stacks (fresh_id : nat -> string) (cmds : list AICommand) :
  forallb (fun c => negb (is_undo_redo c)) cmds = true ->
  forall s, history (fold_left (apply_command fresh_id) cmds s) = history s /\
            redoStack (fold_left (apply_command fresh_id) cmds s) = redoStack s.
Proof.
  induction cmds as [|c cmds IH]; simpl; intros Hc s; [auto|].
  apply andb_true_iff in Hc as [Hc Hcs].
  destruct (IH Hcs (apply_command fresh_id s c)) as [-> ->].
  unfold apply_command. unfold is_undo_redo in Hc.
  destruct (action c); simpl in Hc; try discriminate.
  - destruct (objectData c); [|auto]. destruct (if str_truthy _ then _ else _). auto.
  - destruct (opt_or _ _) as [t|]; [|auto].
    destruct (str_truthy (Some t)); [|auto].
    destruct (map_get t (sobjects s)); auto.
  - destruct (opt_or _ _) as [t|]; [|auto]. destruct (str_truthy (Some t)); auto.
  - auto.
  - auto.
Qed.

Lemma step_mutating (fresh_id : nat -> string) (sc : scene) (op : scene_op) :
  mutating sc op = true ->
  history (step fresh_id sc op) = history (saveState sc) /\ redoStack (step fresh_id sc op) = [].
Proof.
  destruct op as [i n | i | cmds | |]; simpl; intros H; try discriminate.
  - unfold renameObject. destruct (getObject sc i) as [o|]; [|discriminate].
    destruct (String.eqb (name o) n); [discriminate|]. split; reflexivity.
  - unfold duplicateObject. destruct (getObject sc i); [|discriminate].
    destruct (position c) as [[x y] z]. split; reflexivity.
  - apply andb_true_iff in H as [Hm Hu]. unfold processCommands. rewrite Hm.
    destruct (fold_no_undo_stacks fresh_id cmds Hu (saveState sc)) as [-> ->].
    split; reflexivity.
Qed.

Lemma bound_history_skipn (h : list snapshot) :
  length h <= S maxHistory -> bound_history h = skipn (length h - maxHistory) h.
Proof.
  unfold bound_history. intros Hl. destruct (Nat.ltb maxHistory (length h)) eqn:E.
  - apply Nat.ltb_lt in E. replace (length h - maxHistory) with 1 by lia.
    destruct h; reflexivity.
  - apply Nat.ltb_ge in E. replace (length h - maxHistory) with 0 by lia. reflexivity.
Qed.

Lemma skipn_app_small (A : Type) (k : nat) (l1 l2 : list A) :
  k <= length l1 -> skipn k (l1 ++ l2) = skipn k l1 ++ l2.
Proof.
  intros Hk. rewrite skipn_app. replace (k - length l1) with 0 by lia. reflexivity.
Qed.

Lemma push_all_skipn (xs : list snapshot) :
  forall h, length h <= maxHistory ->
  push_all h xs = skipn (length (h ++ xs) - maxHistory) (h ++ xs).
Proof.
  induction xs as [|x xs IH]; intros h Hh; unfold push_all; simpl.
  - rewrite app_nil_r. replace (length h - maxHistory) with 0 by lia. reflexivity.
  - fold (push_all (bound_history (h ++ [x])) xs).
    assert (Hb : length (h ++ [x]) <= S maxHistory) by (rewrite length_app; simpl; lia).
    rewrite (bound_history_skipn _ Hb).
    rewrite IH.
    + set (k := length (h ++ [x]) - maxHistory).
      assert (Hk : k <= length (h ++ [x])) by (unfold k; lia).
      rewrite <- skipn_app_small by exact Hk.
      rewrite skipn_skipn.
      rewrite <- app_assoc. simpl.
      f_equal. unfold k. repeat rewrite ?length_app, ?length_skipn. simpl. lia.
    + rewrite length_skipn. lia.
Qed.

Lemma run_mutating_history (fresh_id : nat -> string) (ops : list scene_op) :
  forall sc, all_mutating fresh_id sc ops = true ->
  history (run fresh_id ops sc) = push_all (history sc) (map exportScene (pre_states fresh_id sc ops)) /\
  (ops <> [] -> redoStack (run fresh_id ops sc) = []).
Proof.
  induction ops as [|op ops IH]; simpl; intros sc H.
  - split; [reflexivity | congruence].
  - apply andb_true_iff in H as [Hm Hrest].
    destruct (IH (step fresh_id sc op) Hrest) as [Hh Hr].
    destruct (step_mutating fresh_id sc op Hm) as [Hs Hsr].
    split.
    + rewrite Hh, Hs. reflexivity.
    + intros _. destruct ops as [|op' ops'].
      * exact Hsr.
      * apply Hr. discriminate.
Qed.

Lemma pre_states_length (fresh_id : nat -> string) (ops : list scene_op) :
  forall sc, length (pre_states fresh_id sc ops) = length ops.
Proof. induction ops; simpl; intros; [reflexivity | f_equal; auto]. Qed.

(** C8: the undo stack never exceeds [maxHistory] = 20 along any run from
    the empty scene; [saveState] clears the redo stack and pushes the
    current snapshot, dropping the oldest entry when the stack is full;
    every mutating operation does exactly that; and after 21 mutating
    operations the undo stack holds the snapshots taken before the 2nd to
    the 21st, the redo stack is empty, so the snapshot taken before the
    first is gone unless an equal one was taken later. *)
Theorem C8_bounded_history (fresh_id : nat -> string) :
  (forall ops, length (history (run fresh_id ops empty_scene)) <= maxHistory) /\
  (forall sc, length (history sc) <= maxHistory ->
     redoStack (saveState sc) = [] /\
     history (saveState sc) =
       (if Nat.ltb (length (history sc)) maxHistory then history sc else tl (history sc))
       ++ [exportScene sc]) /\
  (forall sc op, mutating sc op = true ->
     history (step fresh_id sc op) = history (saveState sc) /\ redoStack (step fresh_id sc op) = []) /\
  (forall sc0 ops, length (history sc0) <= maxHistory -> length ops = 21 ->
     all_mutating fresh_id sc0 ops = true ->
     history (run fresh_id ops sc0) = map exportScene (tl (pre_states fresh_id sc0 ops)) /\
     redoStack (run fresh_id ops sc0) = [] /\
     ((forall s, In s (tl (pre_states fresh_id sc0 ops)) -> exportScene s <> exportScene sc0) ->
      ~ In (exportScene sc0) (history (run fresh_id ops sc0)))).
Proof.
  split; [|split; [|split]].
  - intros ops. assert (H := run_inv fresh_id ops empty_scene). unfold hist_inv in H.
    simpl in H. specialize (H (Nat.le_0_l _)). lia.
  - intros sc Hl. split; [reflexivity|]. simpl. unfold bound_history.
    rewrite length_app. simpl.
    destruct (Nat.ltb (length (history sc)) maxHistory) eqn:E.
    + apply Nat.ltb_lt in E.
      replace (Nat.ltb maxHistory (length (history sc) + 1)) with false
        by (symmetry; apply Nat.ltb_ge; lia).
      reflexivity.
    + apply Nat.ltb_ge in E.
      replace (Nat.ltb maxHistory (length (history sc) + 1)) with true
        by (symmetry; apply Nat.ltb_lt; lia).
      destruct (history sc) as [|a l]; [unfold maxHistory in *; simpl in *; lia|].
      reflexivity.
  - intros sc op Hm. apply step_mutating. exact Hm.
  - intros sc0 ops Hh Hlen Hm.
    destruct (run_mutating_history fresh_id ops sc0 Hm) as [Hhist Hredo].
    assert (Hhist' : history (run fresh_id ops sc0) = map exportScene (tl (pre_states fresh_id sc0 ops))).
    { rewrite Hhist, push_all_skipn by exact Hh.
      assert (Hp := pre_states_length fresh_id ops sc0).
      destruct ops as [|op ops']; [discriminate|].
      simpl pre_states. simpl tl. simpl map.
      rewrite length_app. simpl. rewrite length_map, pre_states_length.
      simpl in Hlen. injection Hlen as Hlen. rewrite Hlen.
      replace (length (history sc0) + S 20 - maxHistory) with (length (history sc0) + 1)
        by (unfold maxHistory; lia).
      rewrite skipn_app.
      rewrite skipn_all2 by lia. simpl.
      replace (length (history sc0) + 1 - length (history sc0)) with 1 by lia.
      reflexivity. }
    split; [exact Hhist' | split].
    + apply Hredo. intros E. subst ops. discriminate.
    + intros Hdist Hin. rewrite Hhist' in Hin.
      apply in_map_iff in Hin as [s [Hs Hin]]. exact (Hdist s Hin Hs).
Qed.

Lemma C8_witness :
  all_mutating (fun _ => "gen") empty_scene twenty_one_creates = true /\
  ~ In (exportScene empty_scene) (history (run (fun _ => "gen") twenty_one_creates empty_scene)).
Proof.
  split; [vm_compute; reflexivity|].
  destruct (C8_bounded_history (fun _ => "gen")) as [_ [_ [_ H]]].
  apply (H empty_scene twenty_one_creates); [simpl; lia | reflexivity | vm_compute; reflexivity |].
  intros s Hin E.
  assert (Hall : forallb (fun s => negb (Nat.eqb (length (exportScene s)) 0))
                   (tl (pre_states (fun _ => "gen") empty_scene twenty_one_creates)) = true)
    by (vm_compute; reflexivity).
  rewrite forallb_forall in Hall. specialize (Hall s Hin).
  rewrite E in Hall. vm_compute in Hall. discriminate.
Defined.

(** ** Unique names *)

Lemma string_app_inj (p a b : string) : (p ++ a)%string = (p ++ b)%string -> a = b.
Proof.
  induction p as [|c p IH]; simpl; intros H; [exact H|].
  injection H as H. exact (IH H).
Qed.

Lemma uint_to_string_inj (u v : Decimal.uint) : uint_to_string u = uint_to_string v -> u = v.
Proof.
  revert v. induction u; destruct v; simpl; intros H; try discriminate; try reflexivity;
    try (inversion H; fail); injection H as H; f_equal; apply IHu; exact H.
Qed.

Lemma nat_to_string_inj (a b : nat) : nat_to_string a = nat_to_string b -> a = b.
Proof.
  unfold nat_to_string. intros H. apply DecimalNat.Unsigned.to_uint_inj.
  apply uint_to_string_inj. exact H.
Qed.

Lemma map_inj_NoDup (A B : Type) (f : A -> B) (l : list A) :
  (forall a b, f a = f b -> a = b) -> NoDup l -> NoDup (map f l).
Proof.
  intros Hf Hl. induction Hl as [|x l Hx Hl IH]; simpl; constructor; [|exact IH].
  intros Hin. apply in_map_iff in Hin as [y [Hy Hin]]. apply Hf in Hy. subst. contradiction.
Qed.

Lemma name_search_spec (taken : list string) (base : string) (fuel : nat) :
  forall counter,
  (exists c, counter <= c <= counter + fuel /\
             name_search taken base fuel counter = (base ++ nat_to_string c)%string) /\
  (str_mem (name_search taken base fuel counter) taken = false \/
   (name_search taken base fuel counter = (base ++ nat_to_string (counter + fuel))%string /\
    forall c, counter <= c < counter + fuel -> In (base ++ nat_to_string c)%string taken)).
Proof.
  induction fuel as [|f IH]; intros counter; cbn [name_search].
  - split.
    + exists counter. rewrite Nat.add_0_r. split; [lia | reflexivity].
    + right. rewrite Nat.add_0_r. split; [reflexivity | intros c Hc; lia].
  - destruct (str_mem (base ++ nat_to_string counter) taken) eqn:E.
    + destruct (IH (S counter)) as [[c [Hc Hr]] H2]. split.
      * exists c. split; [lia | exact Hr].
      * destruct H2 as [H2 | [Hr2 Hall]]; [left; exact H2 | right]. split.
        -- replace (counter + S f) with (S counter + f) by lia. exact Hr2.
        -- intros c' Hc'. destruct (Nat.eq_dec c' counter) as [->|Hne].
           ++ apply str_mem_In. exact E.
           ++ apply Hall. lia.
    + split; [exists counter; split; [lia | reflexivity] | left; exact E].
Qed.

Lemma getUniqueName_free (sc : scene) (base : string) (ex : option string) :
  forall o, In o (getObjects sc) ->
  match ex with Some e => id o <> e | None => True end ->
  name o <> getUniqueName sc base ex.
Proof.
  set (taken := map name (filter (fun o => match ex with
                                          | Some e => negb (String.eqb (id o) e)
                                          | None => true
                                          end) (getObjects sc))).
  assert (Hfresh : str_mem (getUniqueName sc base ex) taken = false).
  { unfold getUniqueName. fold taken.
    destruct (str_mem base taken) eqn:Eb; simpl; [|exact Eb].
    destruct (str_mem (name_search taken base (length taken) 1) taken) eqn:En; [|reflexivity].
    exfalso.
    destruct (name_search_spec taken base (length taken) 1) as [_ [H|[Hr Hall]]];
      [congruence|].
    set (cands := map (fun c => (base ++ nat_to_string c)%string) (seq 1 (S (length taken)))).
    assert (Hnd : NoDup cands).
    { apply map_inj_NoDup; [|apply seq_NoDup].
      intros a b Hab. apply nat_to_string_inj. apply (string_app_inj base). exact Hab. }
    assert (Hincl : incl cands taken).
    { intros s Hs. apply in_map_iff in Hs as [c [<- Hc]]. apply in_seq in Hc.
      destruct (Nat.eq_dec c (1 + length taken)) as [->|Hne].
      - rewrite <- Hr. apply str_mem_In. exact En.
      - apply Hall. lia. }
    apply NoDup_incl_length in Hincl; [|exact Hnd].
    unfold cands in Hincl. rewrite length_map, length_seq in Hincl. lia. }
  intros o Ho He Heq.
  assert (Hin : In (name o) taken).
  { apply in_map. apply filter_In. split; [exact Ho|].
    destruct ex; [apply negb_true_iff, String.eqb_neq; exact He | reflexivity]. }
  rewrite Heq in Hin. apply str_mem_In in Hin. congruence.
Qed.

Lemma getUniqueName_base (sc : scene) (base : string) (ex : option string) :
  (forall o, In o (getObjects sc) ->
     match ex with Some e => id o <> e | None => True end -> name o <> base) ->
  getUniqueName sc base ex = base.
Proof.
  intros Hfree. unfold getUniqueName.
  destruct (str_mem base _) eqn:Eb; [|reflexivity]. exfalso.
  apply str_mem_In, in_map_iff in Eb as [o [Hn Ho]]. apply filter_In in Ho as [Ho Hk].
  apply (Hfree o Ho); [|exact Hn].
  destruct ex; [apply negb_true_iff, String.eqb_neq in Hk; exact Hk | exact I].
Qed.

Lemma getUniqueName_shape (sc : scene) (base : string) (ex : option string) :
  getUniqueName sc base ex = base \/
  exists c, 1 <= c /\ getUniqueName sc base ex = (base ++ nat_to_string c)%string.
Proof.
  unfold getUniqueName. destruct (str_mem base _); simpl; [right | left; reflexivity].
  destruct (name_search_spec (map name (filter (fun o => match ex with
                                          | Some e => negb (String.eqb (id o) e)
                                          | None => true
                                          end) (getObjects sc))) base
              (length (map name (filter (fun o => match ex with
                                          | Some e => negb (String.eqb (id o) e)
                                          | None => true
                                          end) (getObjects sc)))) 1) as [[c [Hc Hr]] _].
  exists c. split; [lia | exact Hr].
Qed.

(** X1: [getUniqueName(baseName, excludeId)] never returns a name held by
    an object of the scene other than those whose [id] is [excludeId]; it
    returns [baseName] itself when no such object holds it, and otherwise
    [baseName] followed by a counter [1, 2, ...]. *)
Theorem getUniqueName_spec (sc : scene) (base : string) (ex : option string) :
  (forall o, In o (getObjects sc) ->
     match ex with Some e => id o <> e | None => True end ->
     name o <> getUniqueName sc base ex) /\
  ((forall o, In o (getObjects sc) ->
      match ex with Some e => id o <> e | None => True end -> name o <> base) ->
   getUniqueName sc base ex = base) /\
  (getUniqueName sc base ex = base \/
   exists c, 1 <= c /\ getUniqueName sc base ex = (base ++ nat_to_string c)%string).
Proof.
  split; [apply getUniqueName_free | split; [apply getUniqueName_base | apply getUniqueName_shape]].
Qed.

Lemma getUniqueName_spec_witness :
  getUniqueName two_objects "Z" None = "Z".
Proof.
  destruct (getUniqueName_spec two_objects "Z" None) as [_ [H _]].
  apply H. intros o Ho _. vm_compute in Ho.
  destruct Ho as [<-|[<-|[]]]; discriminate.
Defined.

(** ** Renaming and duplicating *)

(** X2: renaming a present object to a different name saves a snapshot,
    clears the redo stack, and stores the object under the same key with
    a name that no other object (by [id]) holds, the requested one when it
    is free; the keys and every other entry are unchanged. *)
Theorem renameObject_spec (sc : scene) (objId newName : string) (obj : CADObject) :
  getObject sc objId = Some obj -> name obj <> newName ->
  exists u,
    getObject (renameObject objId newName sc) objId = Some (with_name obj u) /\
    (forall o, In o (getObjects sc) -> id o <> objId -> name o <> u) /\
    ((forall o, In o (getObjects sc) -> id o <> objId -> name o <> newName) -> u = newName) /\
    map fst (sobjects (renameObject objId newName sc)) = map fst (sobjects sc) /\
    (forall k, k <> objId -> getObject (renameObject objId newName sc) k = getObject sc k) /\
    redoStack (renameObject objId newName sc) = [] /\
    history (renameObject objId newName sc) = history (saveState sc).
Proof.
  intros Ho Hn. unfold renameObject. rewrite Ho.
  apply String.eqb_neq in Hn. rewrite Hn.
  exists (getUniqueName (saveState sc) newName (Some objId)).
  split; [|split; [|split; [|split; [|split; [|split]]]]].
  - unfold getObject. simpl. apply map_get_set_same.
  - intros o Ho' He. apply (getUniqueName_free (saveState sc) newName (Some objId) o Ho' He).
  - intros Hfree. apply getUniqueName_base. exact Hfree.
  - simpl. eapply map_set_keys. exact Ho.
  - intros k Hk. unfold getObject. simpl. apply map_get_set_other. exact Hk.
  - reflexivity.
  - reflexivity.
Qed.

Lemma renameObject_spec_witness :
  exists obj, getObject two_objects "A" = Some obj /\ name obj <> "Y" /\
  (exists u, getObject (renameObject "A" "Y" two_objects) "A" = Some (with_name obj u)) /\
  option_map name (getObject (renameObject "A" "Y" two_objects) "A") = Some "Y1".
Proof.
  exists (created_object (saveState empty_scene) "A"
            (mkPartial (Some "A") (Some "X") None None None None None None None None None)).
  assert (Ho : getObject two_objects "A" =
               Some (created_object (saveState empty_scene) "A"
                       (mkPartial (Some "A") (Some "X") None None None None None None None None None)))
    by (vm_compute; reflexivity).
  assert (Hn : name (created_object (saveState empty_scene) "A"
                       (mkPartial (Some "A") (Some "X") None None None None None None None None None)) <> "Y")
    by (vm_compute; discriminate).
  destruct (renameObject_spec two_objects "A" "Y" _ Ho Hn) as [u [Hu _]].
  split; [exact Ho | split; [exact Hn | split; [exists u; exact Hu|]]].
  vm_compute. reflexivity.
Defined.

Lemma In_map_set_other (k k' : string) (v o : CADObject) (m : objmap) :
  In (k', o) (map_set k v m) -> k' <> k -> In (k', o) m.
Proof.
  induction m as [|[k0 v0] m IH]; simpl; intros H Hne.
  - destruct H as [H|[]]. injection H as <- <-. contradiction.
  - destruct (String.eqb k k0) eqn:E; simpl in H.
    + destruct H as [H|H]; [injection H as <- <-; contradiction | right; exact H].
    + destruct H as [H|H]; [left; exact H | right; apply IH; assumption].
Qed.

Lemma In_getObjects (sc : scene) (k : string) (o : CADObject) :
  In (k, o) (sobjects sc) -> In o (getObjects sc).
Proof. intros H. unfold getObjects, map_values. apply in_map_iff. exists (k, o). auto. Qed.

(** X3: duplicating a present object, when the new random id is not a key
    yet, saves a snapshot, clears the redo stack and appends one entry
    under the new id: a copy of the object moved by 1.5 along x, not
    selected, with a name no object of the scene holds; the existing
    entries are unchanged. *)
Theorem duplicateObject_spec (fresh_id : nat -> string) (sc : scene) (objId : string)
  (obj : CADObject) :
  getObject sc objId = Some obj -> ~ In (fresh_id (generated sc)) (map fst (sobjects sc)) ->
  exists dup,
    sobjects (duplicateObject fresh_id objId sc) = sobjects sc ++ [(fresh_id (generated sc), dup)] /\
    id dup = fresh_id (generated sc) /\
    (forall o, In o (getObjects sc) -> name o <> name dup) /\
    position dup = (add_one_and_half (fst (fst (position obj))),
                    snd (fst (position obj)), snd (position obj)) /\
    selected dup = Some false /\
    type dup = type obj /\ rotation dup = rotation obj /\ scale dup = scale obj /\
    color dup = color obj /\ args dup = args obj /\ visible dup = visible obj /\
    geometryData dup = geometryData obj /\
    generated (duplicateObject fresh_id objId sc) = S (generated sc) /\
    redoStack (duplicateObject fresh_id objId sc) = [] /\
    history (duplicateObject fresh_id objId sc) = history (saveState sc).
Proof.
  intros Ho Hfresh. unfold duplicateObject. rewrite Ho.
  destruct (position obj) as [[x y] z] eqn:Ep. simpl.
  eexists. split; [apply map_set_fresh; exact Hfresh|].
  simpl. repeat (split; [reflexivity|]).
  split; [intros o Ho'; exact (getUniqueName_free (saveState sc) (name obj) None o Ho' I)|].
  repeat split.
Qed.

Lemma duplicateObject_spec_witness :
  exists obj, getObject two_objects "A" = Some obj /\
  ~ In "gen" (map fst (sobjects two_objects)) /\
  (exists dup, sobjects (duplicateObject (fun _ => "gen") "A" two_objects) =
               sobjects two_objects ++ [("gen", dup)]) /\
  map name (getObjects (duplicateObject (fun _ => "gen") "A" two_objects)) = ["X"; "Y"; "X1"].
Proof.
  exists (created_object (saveState empty_scene) "A"
            (mkPartial (Some "A") (Some "X") None None None None None None None None None)).
  assert (Ho : getObject two_objects "A" =
               Some (created_object (saveState empty_scene) "A"
                       (mkPartial (Some "A") (Some "X") None None None None None None None None None)))
    by (vm_compute; reflexivity).
  assert (Hf : ~ In ((fun _ : nat => "gen") (generated two_objects)) (map fst (sobjects two_objects))).
  { vm_compute. intros [H|[H|[]]]; discriminate. }
  destruct (duplicateObject_spec (fun _ => "gen") two_objects "A" _ Ho Hf) as [dup [Hs _]].
  split; [exact Ho | split; [exact Hf | split; [exists dup; exact Hs|]]].
  vm_compute. reflexivity.
Defined.

(** ** The commands of a batch *)

Lemma process_one (fresh_id : nat -> string) (sc : scene) (c : AICommand) :
  modifies (action c) = true ->
  processCommands fresh_id [c] sc = apply_command fresh_id (saveState sc) c.
Proof. intros H. unfold processCommands. simpl. rewrite H. reflexivity. Qed.

(** X4: a CREATE with [objectData] stores the object built from it,
    [created_object], under the key it chose (the data's id, else the
    target id, else the next random id), and its name is held by no other
    entry of the resulting scene nor by any object of the scene before;
    it is the requested name ([Object] when missing or empty) when no
    object of the scene holds that name. *)
Theorem create_unique_name (fresh_id : nat -> string) (sc : scene) (tid : option string)
  (d : PartialCAD) :
  let chosen := opt_or (p_id d) (opt_or tid (p_id d)) in
  let k := if str_truthy chosen then or_default chosen "" else fresh_id (generated sc) in
  let o := created_object (saveState sc) k d in
  let sc' := processCommands fresh_id [mkCommand CREATE tid (Some d)] sc in
  getObject sc' k = Some o /\
  (forall k' o', In (k', o') (sobjects sc') -> k' <> k -> name o' <> name o) /\
  (forall o', In o' (getObjects sc) -> name o' <> name o) /\
  ((forall o', In o' (getObjects sc) -> name o' <> str_or (p_name d) "Object") ->
   name o = str_or (p_name d) "Object").
Proof.
  cbv zeta. rewrite process_one by reflexivity. unfold apply_command.
  cbn [action objectData targetId].
  destruct (str_truthy (opt_or (p_id d) (opt_or tid (p_id d))));
    (split; [|split; [|split]]).
  all: try (unfold getObject; simpl; apply map_get_set_same).
  all: try (intros k' o' Hin Hne; simpl in Hin; apply In_map_set_other in Hin; [|exact Hne];
            apply (getUniqueName_free (saveState sc) _ None o' (In_getObjects (saveState sc) k' o' Hin) I)).
  all: try (intros o' Ho'; apply (getUniqueName_free (saveState sc) _ None o' Ho' I)).
  all: intros Hfree; apply getUniqueName_base; intros o' Ho' _; exact (Hfree o' Ho').
Qed.

Lemma create_unique_name_witness :
  getObject (processCommands (fun _ => "gen") [mkCommand CREATE None
               (Some (mkPartial None (Some "X") None None None None None None None None None))]
               two_objects) "gen" =
    Some (created_object (saveState two_objects) "gen"
            (mkPartial None (Some "X") None None None None None None None None None)) /\
  map name (getObjects (processCommands (fun _ => "gen") [mkCommand CREATE None
                  (Some (mkPartial None (Some "X") None None None None None None None None None))]
                  two_objects)) = ["X"; "Y"; "X1"].
Proof.
  split.
  - exact (proj1 (create_unique_name (fun _ => "gen") two_objects None
                    (mkPartial None (Some "X") None None None None None None None None None))).
  - vm_compute. reflexivity.
Defined.

(** X5: a CREATE whose [objectData.id] and [targetId] are both missing or
    empty takes the next random id; when that id is not a key yet, the new
    object is appended at the end and the other entries are unchanged. *)
Theorem create_fresh_id (fresh_id : nat -> string) (sc : scene) (tid : option string)
  (d : PartialCAD) :
  str_truthy (p_id d) = false -> str_truthy tid = false ->
  ~ In (fresh_id (generated sc)) (map fst (sobjects sc)) ->
  sobjects (processCommands fresh_id [mkCommand CREATE tid (Some d)] sc) =
    sobjects sc ++ [(fresh_id (generated sc), created_object (saveState sc) (fresh_id (generated sc)) d)] /\
  generated (processCommands fresh_id [mkCommand CREATE tid (Some d)] sc) = S (generated sc).
Proof.
  intros Hp Ht Hf. rewrite process_one by reflexivity. unfold apply_command.
  cbn [action objectData targetId].
  assert (Hc : str_truthy (opt_or (p_id d) (opt_or tid (p_id d))) = false).
  { unfold opt_or. rewrite Hp, Ht, Hp. reflexivity. }
  rewrite Hc. simpl. split; [|reflexivity]. apply map_set_fresh. exact Hf.
Qed.

Lemma create_fresh_id_witness :
  str_truthy None = false /\
  map fst (sobjects (processCommands (fun _ => "gen") [mkCommand CREATE None
        (Some (mkPartial None None None None None None None None None None None))] two_objects))
    = ["A"; "B"; "gen"].
Proof.
  assert (Hf : ~ In ((fun _ : nat => "gen") (generated two_objects)) (map fst (sobjects two_objects))).
  { vm_compute. intros [H|[H|[]]]; discriminate. }
  split; [reflexivity|].
  rewrite (proj1 (create_fresh_id (fun _ => "gen") two_objects None
                    (mkPartial None None None None None None None None None None None)
                    eq_refl eq_refl Hf)).
  vm_compute. reflexivity.
Defined.

(** X6: an UPDATE whose [targetId] is a present key keeps the keys, their
    order and every other entry; the target stays under its key, and a
    non-empty new name is made unique against the objects whose [id] is
    not the target. *)
Theorem update_present (fresh_id : nat -> string) (sc : scene) (t : string)
  (od : option PartialCAD) (ex : CADObject) :
  t <> "" -> getObject sc t = Some ex ->
  map fst (sobjects (processCommands fresh_id [mkCommand UPDATE (Some t) od] sc)) = map fst (sobjects sc) /\
  (forall k, k <> t -> getObject (processCommands fresh_id [mkCommand UPDATE (Some t) od] sc) k = getObject sc k) /\
  exists o, getObject (processCommands fresh_id [mkCommand UPDATE (Some t) od] sc) t = Some o /\
    (forall s, match od with Some d => p_name d | None => None end = Some s -> s <> "" ->
       forall o', In o' (getObjects sc) -> id o' <> t -> name o' <> name o).
Proof.
  intros Ht Hex. rewrite process_one by reflexivity. unfold apply_command.
  cbn [action objectData targetId].
  assert (Htr : str_truthy (Some t) = true).
  { simpl. apply String.eqb_neq in Ht. rewrite Ht. reflexivity. }
  assert (Hor : opt_or (Some t) (match od with Some d => p_id d | None => None end) = Some t).
  { unfold opt_or. rewrite Htr. reflexivity. }
  rewrite Hor, Htr.
  assert (Hg : map_get t (sobjects (saveState sc)) = Some ex) by exact Hex.
  rewrite Hg. simpl.
  split; [|split].
  - eapply map_set_keys. exact Hex.
  - intros k Hk. unfold getObject. simpl. apply map_get_set_other. exact Hk.
  - eexists. split; [unfold getObject; simpl; apply map_get_set_same|].
    intros s Hs Hne o' Ho' Hid. destruct od as [d|]; [|discriminate].
    simpl. unfold merge_update. simpl in Hs. rewrite Hs.
    apply String.eqb_neq in Hne. rewrite Hne. simpl.
    exact (getUniqueName_free (saveState sc) s (Some t) o' Ho' Hid).
Qed.

Lemma update_present_witness :
  map name (getObjects (processCommands (fun _ => "gen") [mkCommand UPDATE (Some "A")
      (Some (mkPartial None (Some "Y") None None None None None None None None None))] two_objects))
    = ["Y1"; "Y"] /\
  map fst (sobjects (processCommands (fun _ => "gen") [mkCommand UPDATE (Some "A")
      (Some (mkPartial None (Some "Y") None None None None None None None None None))] two_objects))
    = ["A"; "B"].
Proof.
  assert (Hex : exists ex, getObject two_objects "A" = Some ex)
    by (eexists; vm_compute; reflexivity).
  destruct Hex as [ex Hex].
  destruct (update_present (fun _ => "gen") two_objects "A"
              (Some (mkPartial None (Some "Y") None None None None None None None None None)) ex
              ltac:(discriminate) Hex) as [Hk _].
  split; [vm_compute; reflexivity | rewrite Hk; vm_compute; reflexivity].
Defined.

Lemma map_get_delete_same (k : string) (m : objmap) : map_get k (map_delete k m) = None.
Proof.
  induction m as [|[k' v'] m IH]; [reflexivity|]. unfold map_delete in *. simpl.
  destruct (String.eqb k k') eqn:E; simpl; [exact IH|]. rewrite E. exact IH.
Qed.

Lemma map_get_delete_other (k k' : string) (m : objmap) :
  k' <> k -> map_get k' (map_delete k m) = map_get k' m.
Proof.
  intros Hne. induction m as [|[k0 v0] m IH]; [reflexivity|]. unfold map_delete in *. simpl.
  destruct (String.eqb k k0) eqn:E; simpl.
  - apply String.eqb_eq in E. subst k0. apply String.eqb_neq in Hne. rewrite Hne. exact IH.
  - rewrite IH. reflexivity.
Qed.

Lemma map_delete_absent (k : string) (m : objmap) : map_get k m = None -> map_delete k m = m.
Proof.
  induction m as [|[k' v'] m IH]; simpl; intros H; [reflexivity|].
  unfold map_delete in *. simpl. destruct (String.eqb k k') eqn:E; [discriminate|].
  simpl. f_equal. apply IH. exact H.
Qed.

(** X7: a DELETE whose [targetId] is non-empty removes that key and keeps
    every other entry in order. *)
Theorem delete_target (fresh_id : nat -> string) (sc : scene) (t : string) (od : option PartialCAD) :
  t <> "" ->
  getObject (processCommands fresh_id [mkCommand DELETE (Some t) od] sc) t = None /\
  (forall k, k <> t -> getObject (processCommands fresh_id [mkCommand DELETE (Some t) od] sc) k = getObject sc k) /\
  map fst (sobjects (processCommands fresh_id [mkCommand DELETE (Some t) od] sc)) =
    filter (fun k => negb (String.eqb t k)) (map fst (sobjects sc)).
Proof.
  intros Ht. rewrite process_one by reflexivity. unfold apply_command.
  cbn [action objectData targetId].
  assert (Htr : str_truthy (Some t) = true).
  { simpl. apply String.eqb_neq in Ht. rewrite Ht. reflexivity. }
  assert (Hor : opt_or (Some t) (match od with Some d => p_id d | None => None end) = Some t).
  { unfold opt_or. rewrite Htr. reflexivity. }
  rewrite Hor, Htr. unfold getObject. simpl.
  split; [apply map_get_delete_same | split].
  - intros k Hk. apply map_get_delete_other. exact Hk.
  - unfold map_delete. induction (sobjects sc) as [|[k v] m IH]; [reflexivity|].
    simpl. destruct (String.eqb t k); simpl; [exact IH | f_equal; exact IH].
Qed.

Lemma delete_target_witness :
  map fst (sobjects (processCommands (fun _ => "gen") [mkCommand DELETE (Some "A") None] two_objects)) = ["B"].
Proof.
  rewrite (proj2 (proj2 (delete_target (fun _ => "gen") two_objects "A" None ltac:(discriminate)))).
  vm_compute. reflexivity.
Defined.

(** X8: an UPDATE or DELETE whose non-empty [targetId] is not a key
    changes no object, yet still pushes a snapshot and clears the redo
    stack. *)
Theorem missing_target_still_saves (fresh_id : nat -> string) (sc : scene) (a : AIActionType)
  (t : string) (od : option PartialCAD) :
  a = UPDATE \/ a = DELETE -> t <> "" -> getObject sc t = None ->
  sobjects (processCommands fresh_id [mkCommand a (Some t) od] sc) = sobjects sc /\
  history (processCommands fresh_id [mkCommand a (Some t) od] sc) = history (saveState sc) /\
  redoStack (processCommands fresh_id [mkCommand a (Some t) od] sc) = [].
Proof.
  intros Ha Ht Hm.
  assert (Htr : str_truthy (Some t) = true).
  { simpl. apply String.eqb_neq in Ht. rewrite Ht. reflexivity. }
  assert (Hor : opt_or (Some t) (match od with Some d => p_id d | None => None end) = Some t).
  { unfold opt_or. rewrite Htr. reflexivity. }
  destruct Ha as [-> | ->]; rewrite process_one by reflexivity; unfold apply_command;
    cbn [action objectData targetId]; rewrite Hor, Htr.
  - assert (Hg : map_get t (sobjects (saveState sc)) = None) by exact Hm.
    rewrite Hg. repeat split.
  - simpl. rewrite map_delete_absent by exact Hm. repeat split.
Qed.

Lemma missing_target_still_saves_witness :
  redoStack (undo two_objects) <> [] /\
  redoStack (processCommands (fun _ => "gen") [mkCommand DELETE (Some "C") None] (undo two_objects)) = [].
Proof.
  split; [vm_compute; discriminate|].
  apply (missing_target_still_saves (fun _ => "gen") (undo two_objects) DELETE "C" None);
    [right; reflexivity | discriminate | vm_compute; reflexivity].
Defined.

(** X9: a batch of FOCUS commands leaves the scene exactly as it was:
    objects, both history stacks and the id counter. *)
Theorem focus_batch_noop (fresh_id : nat -> string) (cmds : list AICommand) (sc : scene) :
  forallb is_focus cmds = true -> processCommands fresh_id cmds sc = sc.
Proof.
  intros H. unfold processCommands.
  assert (Hm : existsb (fun c => modifies (action c)) cmds = false).
  { induction cmds as [|c cmds IH]; [reflexivity|]. simpl in *.
    apply andb_true_iff in H as [Hc Hr]. unfold is_focus in Hc.
    destruct (action c); try discriminate. simpl. exact (IH Hr). }
  rewrite Hm. revert sc. induction cmds as [|c cmds IH]; intros sc; [reflexivity|].
  simpl in *. apply andb_true_iff in H as [Hc Hr]. unfold is_focus in Hc.
  unfold apply_command at 2. destruct (action c); try discriminate.
  exact (IH Hr ltac:(destruct (existsb _ _); [discriminate|reflexivity]) sc).
Qed.

Lemma focus_batch_noop_witness :
  processCommands (fun _ => "gen") [mkCommand FOCUS (Some "A") None; mkCommand FOCUS None None] two_objects
    = two_objects.
Proof. apply focus_batch_noop. reflexivity. Defined.

(** ** Undo and redo *)

Lemma str_nodup_NoDup (l : list string) : str_nodup l = true -> NoDup l.
Proof.
  induction l as [|x l IH]; simpl; intros H; [constructor|].
  apply andb_true_iff in H as [Hx Hl]. constructor; [|exact (IH Hl)].
  intros Hin. apply str_mem_In in Hin. rewrite Hin in Hx. discriminate.
Qed.

Lemma scene_wf_props (sc : scene) :
  scene_wf sc = true ->
  NoDup (map fst (sobjects sc)) /\
  forall k o, In (k, o) (sobjects sc) -> k = id o /\ json_safe o = true.
Proof.
  unfold scene_wf. intros H. apply andb_true_iff in H as [Hn Hf].
  split; [apply str_nodup_NoDup; exact Hn|].
  intros k o Hin. rewrite forallb_forall in Hf. specialize (Hf (k, o) Hin).
  simpl in Hf. apply andb_true_iff in Hf as [Hk Hs]. apply String.eqb_eq in Hk. auto.
Qed.

Lemma load_export (sc sc' : scene) :
  scene_wf sc = true -> sobjects (loadScene (exportScene sc) sc') = sobjects sc.
Proof.
  intros Hwf. destruct (scene_wf_props sc Hwf) as [Hnd Hwf'].
  unfold loadScene, exportScene, set_objects, map_values. simpl.
  assert (Hexp : map json_obj (map snd (sobjects sc)) = map snd (sobjects sc)).
  { rewrite <- (map_id (map snd (sobjects sc))) at 2. apply map_ext_in.
    intros o Ho. apply in_map_iff in Ho as [[k o'] [Heq Hin]]. simpl in Heq. subst o'.
    apply json_obj_safe. apply (Hwf' k o Hin). }
  rewrite Hexp. apply (load_values (sobjects sc) []); [exact Hnd|].
  intros k o Hin. apply (Hwf' k o Hin).
Qed.

Lemma bound_history_last (h : list snapshot) (x : snapshot) :
  exists h', bound_history (h ++ [x]) = h' ++ [x].
Proof.
  destruct (bound_history_suffix h [] x) as [h' Hh']; [unfold maxHistory; simpl; lia|].
  exists h'. rewrite app_nil_r in Hh'. exact Hh'.
Qed.

Lemma undo_after_mutating (fresh_id : nat -> string) (sc : scene) (op : scene_op) :
  scene_wf sc = true -> mutating sc op = true ->
  sobjects (undo (step fresh_id sc op)) = sobjects sc /\
  redoStack (undo (step fresh_id sc op)) = [exportScene (step fresh_id sc op)].
Proof.
  intros Hwf Hm. destruct (step_mutating fresh_id sc op Hm) as [Hh Hr].
  destruct (bound_history_last (history sc) (exportScene sc)) as [h' Hh'].
  assert (Hs : history (step fresh_id sc op) = h' ++ [exportScene sc])
    by (rewrite Hh; exact Hh').
  rewrite (undo_app _ _ _ Hs). split.
  - apply load_export. exact Hwf.
  - simpl. rewrite Hr. reflexivity.
Qed.

(** X10: every mutating operation (a rename that changes the name, a
    duplicate of a present object, a batch with a CREATE, UPDATE, DELETE
    or CLEAR and no UNDO or REDO) is reverted by one [undo], when the scene
    before it reads back from its snapshot; the redo stack then holds
    exactly the snapshot of the state that was undone. *)
Theorem undo_reverts_mutation (fresh_id : nat -> string) (sc : scene) (op : scene_op) :
  scene_wf sc = true -> mutating sc op = true ->
  sobjects (undo (step fresh_id sc op)) = sobjects sc /\
  redoStack (undo (step fresh_id sc op)) = [exportScene (step fresh_id sc op)].
Proof. apply undo_after_mutating. Qed.

Lemma undo_reverts_mutation_witness :
  scene_wf two_objects = true /\
  sobjects (undo (step (fun _ => "gen") two_objects (OpProcess [mkCommand CLEAR None None])))
    = sobjects two_objects.
Proof.
  assert (H : scene_wf two_objects = true) by (vm_compute; reflexivity).
  split; [exact H|].
  apply (undo_reverts_mutation (fun _ => "gen") two_objects (OpProcess [mkCommand CLEAR None None]) H).
  reflexivity.
Defined.

Lemma redo_app (sc : scene) (r : list snapshot) (x : snapshot) :
  redoStack sc = r ++ [x] ->
  redo sc = loadScene x (mkScene (sobjects sc) (history sc ++ [exportScene sc]) r (generated sc)).
Proof.
  intros H. unfold redo. rewrite H, rev_app_distr. simpl. rewrite rev_involutive. reflexivity.
Qed.

(** X11: [redo] right after [undo] gives back the objects and leaves the
    redo stack as it was; [undo] right after [redo] gives back the objects
    and leaves the undo stack as it was; in both cases when the starting
    scene reads back from its snapshot and the stack popped first is not
    empty. *)
Theorem undo_redo_inverse (sc : scene) :
  scene_wf sc = true ->
  (history sc <> [] ->
     sobjects (redo (undo sc)) = sobjects sc /\ redoStack (redo (undo sc)) = redoStack sc) /\
  (redoStack sc <> [] ->
     sobjects (undo (redo sc)) = sobjects sc /\ history (undo (redo sc)) = history sc).
Proof.
  intros Hwf. split; intros Hne.
  - destruct (exists_last Hne) as [h [x Hh]].
    rewrite (undo_app _ _ _ Hh).
    assert (Hr : redoStack (loadScene x (mkScene (sobjects sc) h (redoStack sc ++ [exportScene sc])
                                          (generated sc))) = redoStack sc ++ [exportScene sc])
      by reflexivity.
    rewrite (redo_app _ _ _ Hr). split; [apply load_export; exact Hwf | reflexivity].
  - destruct (exists_last Hne) as [r [x Hr]].
    rewrite (redo_app _ _ _ Hr).
    assert (Hh : history (loadScene x (mkScene (sobjects sc) (history sc ++ [exportScene sc]) r
                                          (generated sc))) = history sc ++ [exportScene sc])
      by reflexivity.
    rewrite (undo_app _ _ _ Hh). split; [apply load_export; exact Hwf | reflexivity].
Qed.

Lemma undo_redo_inverse_witness :
  sobjects (redo (undo two_objects)) = sobjects two_objects /\
  sobjects (undo (redo (undo two_objects))) = sobjects (undo two_objects).
Proof.
  split.
  - apply (undo_redo_inverse two_objects ltac:(vm_compute; reflexivity)).
    vm_compute. discriminate.
  - apply (undo_redo_inverse (undo two_objects) ltac:(vm_compute; reflexivity)).
    vm_compute. discriminate.
Defined.

(** ** A second export *)

Lemma json_num_idem (n : num) : json_num (json_num n) = json_num n.
Proof. destruct n; reflexivity. Qed.

Lemma json_obj_idem (o : CADObject) : json_obj (json_obj o) = json_obj o.
Proof.
  destruct o as [i n t [[px py] pz] [[rx ry] rz] [[sx sy] sz] c a sel vis g].
  unfold json_obj. simpl. rewrite !json_num_idem. f_equal.
  - destruct a as [l|]; simpl; [|reflexivity]. rewrite map_map. f_equal.
    apply map_ext. apply json_num_idem.
  - destruct g as [[g|g|s]|]; reflexivity.
Qed.

(** X12: when the objects of a scene have distinct [id]s, importing its
    snapshot and exporting again gives the same snapshot, whatever NaN,
    infinite numbers or geometry the objects held. *)
Theorem export_load_export (sc sc' : scene) :
  NoDup (map id (getObjects sc)) ->
  exportScene (loadScene (exportScene sc) sc') = exportScene sc.
Proof.
  intros Hnd. set (xs := exportScene sc).
  change (map json_obj (map_values (sobjects (loadScene xs sc'))) = xs).
  unfold loadScene, set_objects. cbn [sobjects].
  assert (Hl : fold_left (fun m o => map_set (id o) o m) xs [] = map (fun o => (id o, o)) xs).
  { rewrite <- (map_id xs) at 1.
    replace (map (fun x => x) xs) with (map snd (map (fun o => (id o, o)) xs))
      by (rewrite map_map; reflexivity).
    apply (load_values (map (fun o => (id o, o)) xs) []).
    - simpl. rewrite map_map. simpl. unfold xs, exportScene. rewrite map_map. exact Hnd.
    - intros k o Hin. apply in_map_iff in Hin as [o' [Heq _]]. congruence. }
  rewrite Hl. unfold map_values.
  rewrite map_map, map_map. change (map json_obj xs = xs).
  unfold xs, exportScene. rewrite map_map. apply map_ext. apply json_obj_idem.
Qed.

Lemma export_load_export_witness :
  NoDup (map id (getObjects (run (fun _ => "gen") [OpProcess [infinite_cmd]] empty_scene))) /\
  exportScene (loadScene (exportScene (run (fun _ => "gen") [OpProcess [infinite_cmd]] empty_scene))
                 empty_scene)
    = exportScene (run (fun _ => "gen") [OpProcess [infinite_cmd]] empty_scene).
Proof.
  assert (H : NoDup (map id (getObjects (run (fun _ => "gen") [OpProcess [infinite_cmd]] empty_scene)))).
  { vm_compute. constructor; [intros []|constructor]. }
  split; [exact H | apply export_load_export; exact H].
Defined.

(** ** Brushes in a script *)

Lemma list_set_nth_same (A : Type) (l : list A) (n : nat) (a x : A) :
  nth_error l n = Some a -> nth_error (list_set l n x) n = Some x.
Proof.
  revert n. induction l as [|y l IH]; intros [|n]; simpl; intros H; try discriminate.
  - reflexivity.
  - apply IH. exact H.
Qed.

Lemma nth_error_snoc (A : Type) (l : list A) (x : A) : nth_error (l ++ [x]) (length l) = Some x.
Proof. induction l as [|y l IH]; simpl; [reflexivity | exact IH]. Qed.

Lemma firstn_snoc (A : Type) (l : list A) (x : A) : firstn (length l) (l ++ [x]) = l.
Proof. induction l as [|y l IH]; simpl; [reflexivity | f_equal; exact IH]. Qed.

(** X13: [Move] changes the brush in place and returns the same
    reference, so a move made through one variable is seen through every
    other variable holding that brush: [Move(b, x, y, z); Add(a, nm)] with
    [a] and [b] bound to one brush adds an object at [(x, y, z)] with the
    brush's rotation, scale and colour. *)
Theorem move_through_alias (hex_of_style : string -> option string) (now : nat -> Z) (f : nat)
  (st : sstate) (a b : string) (h : nat) (br : Brush) (px py pz : num) (nm : string) :
  env_lookup a (env st) = Some (VBrush h) -> env_lookup b (env st) = Some (VBrush h) ->
  heap_get st h = Some br ->
  (exists st1,
     eval_expr hex_of_style now st (EMove (EVar b) px py pz) = Ok (VBrush h, st1) /\
     heap_get st1 h = Some (mkBrush (b_geometry br) (b_type br) (px, py, pz)
                                    (b_rotation br) (b_scale br) (b_material br)) /\
     env st1 = env st /\ objects st1 = objects st) /\
  exists st',
    exec hex_of_style now (S (S f)) st
      (SSeq (SExpr (EMove (EVar b) px py pz)) (SExpr (EAdd (EVar a) nm))) = Some (Ok st') /\
    exists o, objects st' = objects st ++ [o] /\ name o = nm /\ position o = (px, py, pz) /\
      rotation o = b_rotation br /\ scale o = b_scale br /\
      color o = ("#" ++ getHexString hex_of_style (b_material br))%string.
Proof.
  intros Ha Hb Hbr. split.
  { cbn [eval_expr bind_res]. rewrite Hb. cbn [bind_res]. unfold Move, update_mesh. cbn [truthy negb].
    rewrite Hbr. eexists. split; [reflexivity|].
    unfold heap_get, heap_put. cbn [heap env objects].
    unfold heap_get in Hbr. split; [exact (list_set_nth_same _ _ _ _ _ Hbr) | split; reflexivity]. }
  unfold heap_get in Hbr.
  cbn [exec eval_expr bind_res]. rewrite Hb. unfold Move, update_mesh, heap_get. cbn.
  rewrite Hbr. cbn [exec eval_expr bind_res]. unfold heap_put. cbn [env heap objects].
  rewrite Ha. unfold Add, heap_get. cbn [truthy negb heap env objects].
  cbn [bind_res truthy negb heap env objects].
  rewrite (list_set_nth_same _ _ _ _ _ Hbr).
  eexists. split; [reflexivity|].
  eexists. split; [reflexivity|]. repeat split.
Qed.

Lemma move_through_alias_witness :
  (exists st1, eval_expr (fun s => Some s) (fun _ => 0%Z)
      (mkSState [new_brush (BoxGeometry (NFin 1%Q) (NFin 1%Q) (NFin 1%Q)) "BOX"]
                [("a", VBrush 0); ("b", VBrush 0)] [])
      (EMove (EVar "b") (NFin 2%Q) (NFin 0%Q) (NFin 0%Q)) = Ok (VBrush 0, st1)) /\
  exists st', exec (fun s => Some s) (fun _ => 0%Z) 2
      (mkSState [new_brush (BoxGeometry (NFin 1%Q) (NFin 1%Q) (NFin 1%Q)) "BOX"]
                [("a", VBrush 0); ("b", VBrush 0)] [])
      (SSeq (SExpr (EMove (EVar "b") (NFin 2%Q) (NFin 0%Q) (NFin 0%Q))) (SExpr (EAdd (EVar "a") "Cube")))
    = Some (Ok st').
Proof.
  destruct (move_through_alias (fun s => Some s) (fun _ => 0%Z) 0
              (mkSState [new_brush (BoxGeometry (NFin 1%Q) (NFin 1%Q) (NFin 1%Q)) "BOX"]
                        [("a", VBrush 0); ("b", VBrush 0)] [])
              "a" "b" 0 (new_brush (BoxGeometry (NFin 1%Q) (NFin 1%Q) (NFin 1%Q)) "BOX")
              (NFin 2%Q) (NFin 0%Q) (NFin 0%Q) "Cube" eq_refl eq_refl eq_refl)
    as [[st1 [Hm _]] [st' [Hst' _]]].
  split; [exists st1; exact Hm | exists st'; exact Hst'].
Defined.

(** X14: [Add] of [Union], [Subtract] or [Intersect] of two brushes adds one
    object placed at the origin with identity rotation and scale and the
    first operand's colour, whose geometry is the CSG of both operands'
    geometries under their own transforms; the operand brushes are left
    as they were, the result being one new brush. *)
Theorem add_csg_result (hex_of_style : string -> option string) (now : nat -> Z) (f : nat)
  (st : sstate) (op : csg_op) (a b : string) (ha hb : nat) (ba bb : Brush) (nm : string) :
  env_lookup a (env st) = Some (VBrush ha) -> env_lookup b (env st) = Some (VBrush hb) ->
  heap_get st ha = Some ba -> heap_get st hb = Some bb ->
  exists st',
    exec hex_of_style now (S f) st (SExpr (EAdd (csg_expr op (EVar a) (EVar b)) nm)) = Some (Ok st') /\
    length (heap st') = S (length (heap st)) /\ firstn (length (heap st)) (heap st') = heap st /\
    exists o, objects st' = objects st ++ [o] /\ name o = nm /\ type o = MESH /\
      color o = ("#" ++ getHexString hex_of_style (b_material ba))%string /\
      position o = zero3 /\ rotation o = zero3 /\ scale o = one3 /\
      geometryData o = Some (GDBuffer (Evaluate op (b_geometry ba) (b_position ba) (b_rotation ba)
                                         (b_scale ba) (b_geometry bb) (b_position bb)
                                         (b_rotation bb) (b_scale bb))).
Proof.
  intros Ha Hb Hba Hbb. unfold heap_get in Hba, Hbb.
  destruct op; cbn [csg_expr exec eval_expr bind_res]; rewrite Ha; cbn [bind_res]; rewrite Hb; cbn [bind_res];
    unfold Union, Subtract, Intersect, boolean_op, heap_get; cbn [truthy negb orb];
    rewrite Hba, Hbb; unfold heap_alloc; cbn [bind_res];
    unfold Add, heap_get; cbn [truthy negb heap env objects];
    rewrite nth_error_snoc;
    (eexists; split; [reflexivity|]);
    (split; [cbn [heap]; rewrite length_app; simpl; lia|]);
    (split; [cbn [heap]; apply firstn_snoc|]);
    (eexists; split; [reflexivity|]); repeat split.
Qed.

Lemma add_csg_result_witness :
  exists st', exec (fun s => Some s) (fun _ => 0%Z) 1
      (mkSState [new_brush (BoxGeometry (NFin 1%Q) (NFin 1%Q) (NFin 1%Q)) "BOX";
                 new_brush (SphereGeometry half 32 32) "SPHERE"]
                [("a", VBrush 0); ("b", VBrush 1)] [])
      (SExpr (EAdd (csg_expr SUBTRACTION (EVar "a") (EVar "b")) "Cut")) = Some (Ok st').
Proof.
  destruct (add_csg_result (fun s => Some s) (fun _ => 0%Z) 0
              (mkSState [new_brush (BoxGeometry (NFin 1%Q) (NFin 1%Q) (NFin 1%Q)) "BOX";
                         new_brush (SphereGeometry half 32 32) "SPHERE"]
                        [("a", VBrush 0); ("b", VBrush 1)] [])
              SUBTRACTION "a" "b" 0 1
              (new_brush (BoxGeometry (NFin 1%Q) (NFin 1%Q) (NFin 1%Q)) "BOX")
              (new_brush (SphereGeometry half 32 32) "SPHERE") "Cut"
              eq_refl eq_refl eq_refl eq_refl) as [st' [Hst' _]].
  exists st'. exact Hst'.
Defined.

(** X15: the transform builtins and [Add] applied to a value that is not a
    brush: a falsy one ([null], [undefined], [false], [0], [NaN], [""]) is
    returned and nothing is added, so the run returns no object; a truthy
    one makes the run throw [Line ?: Cannot read properties of undefined]
    (reading ['set'] for [Move], [Rotate] and [Scale], ['clone'] for
    [Color] and [Add]). *)
Theorem builtins_on_non_brush (hex_of_style : string -> option string) (now : nat -> Z) (f : nat)
  (l : lit) (x y z : num) (c nm : string) :
  let r := fun p => if truthy (lit_value l)
                    then Some (Thrown ("Line ?: Cannot read properties of undefined (reading '" ++ p ++ "')"))
                    else Some (Returned []) in
  execute hex_of_style now (S f) (SExpr (EMove (ELit l) x y z)) = r "set" /\
  execute hex_of_style now (S f) (SExpr (ERotate (ELit l) x y z)) = r "set" /\
  execute hex_of_style now (S f) (SExpr (EScale (ELit l) x y z)) = r "set" /\
  execute hex_of_style now (S f) (SExpr (EColor (ELit l) c)) = r "clone" /\
  execute hex_of_style now (S f) (SExpr (EAdd (ELit l) nm)) = r "clone".
Proof.
  intros r. unfold r.
  destruct l as [| |bl|n|s]; unfold execute; cbn [exec eval_expr bind_res lit_value];
    unfold Move, Rotate, Scale, Color, Add, update_mesh; cbn [truthy].
  - repeat split.
  - repeat split.
  - destruct bl; repeat split.
  - destruct (num_truthy n); repeat split.
  - destruct (String.eqb s ""); repeat split.
Qed.

(** ** Import with repeated ids *)

Lemma find_snoc (A : Type) (p : A -> bool) (l : list A) (x : A) :
  find p (l ++ [x]) = match find p l with Some y => Some y | None => if p x then Some x else None end.
Proof. induction l as [|y l IH]; simpl; [reflexivity|]. destruct (p y); [reflexivity | exact IH]. Qed.

Lemma map_get_set (k k' : string) (v : CADObject) (m : objmap) :
  map_get k' (map_set k v m) = if String.eqb k k' then Some v else map_get k' m.
Proof.
  destruct (String.eqb k k') eqn:E.
  - apply String.eqb_eq in E. subst. apply map_get_set_same.
  - apply String.eqb_neq in E. apply map_get_set_other. congruence.
Qed.

Lemma fold_load_get (k : string) (snap : snapshot) :
  forall acc, map_get k (fold_left (fun m o => map_set (id o) o m) snap acc) =
    match find (fun o => String.eqb (id o) k) (rev snap) with
    | Some o => Some o
    | None => map_get k acc
    end.
Proof.
  induction snap as [|o snap IH]; intros acc; [reflexivity|].
  simpl. rewrite IH, find_snoc, map_get_set.
  destruct (find _ (rev snap)); [reflexivity|]. destruct (String.eqb (id o) k); reflexivity.
Qed.

(** X16: [loadScene] keeps, for each id, the last record of the snapshot
    that carries it, and forgets the objects the scene had before. *)
Theorem loadScene_last_wins (snap : snapshot) (sc : scene) (k : string) :
  getObject (loadScene snap sc) k = find (fun o => String.eqb (id o) k) (rev snap).
Proof.
  unfold getObject, loadScene, set_objects. cbn [sobjects]. rewrite fold_load_get.
  destruct (find _ _); reflexivity.
Qed.

(** ** Distinct names *)

Lemma In_names_map_set (x k : string) (v : CADObject) (m : objmap) :
  In x (map name (map snd (map_set k v m))) -> x = name v \/ In x (map name (map snd m)).
Proof.
  induction m as [|[k' v'] m IH]; simpl.
  - intros [H|[]]. left. symmetry. exact H.
  - destruct (String.eqb k k'); simpl; intros [H|H].
    + left. symmetry. exact H.
    + right. right. exact H.
    + right. left. exact H.
    + destruct (IH H) as [H'|H']; [left; exact H' | right; right; exact H'].
Qed.

Lemma map_set_names_nodup (k : string) (v : CADObject) (m : objmap) :
  NoDup (map name (map snd m)) -> ~ In (name v) (map name (map snd m)) ->
  NoDup (map name (map snd (map_set k v m))).
Proof.
  induction m as [|[k' v'] m IH]; simpl; intros Hnd Hv.
  - constructor; [intros []|constructor].
  - inversion Hnd as [|? ? Hn' Hnd']; subst.
    destruct (String.eqb k k'); simpl.
    + constructor; [|exact Hnd']. intros Hin. apply Hv. right. exact Hin.
    + constructor; [|apply IH; [exact Hnd' | intros Hin; apply Hv; right; exact Hin]].
      intros Hin. destruct (In_names_map_set _ _ _ _ Hin) as [H|H].
      * apply Hv. left. exact H.
      * exact (Hn' H).
Qed.

(** X17: CREATE and [duplicateObject] keep the objects' names pairwise
    distinct: if no two objects of the scene share a name, none do after
    a CREATE batch of one command or a duplicate. *)
Theorem names_stay_distinct (fresh_id : nat -> string) (sc : scene) :
  NoDup (map name (getObjects sc)) ->
  (forall tid d, NoDup (map name (getObjects (processCommands fresh_id [mkCommand CREATE tid (Some d)] sc)))) /\
  (forall i, NoDup (map name (getObjects (duplicateObject fresh_id i sc)))).
Proof.
  intros Hnd. split.
  - intros tid d. rewrite process_one by reflexivity. unfold apply_command.
    cbn [action objectData targetId].
    destruct (if str_truthy _ then _ else _) as [newId gen].
    unfold getObjects, map_values. cbn [sobjects].
    apply map_set_names_nodup; [exact Hnd|].
    intros Hin. apply in_map_iff in Hin as [o [Hn Ho]].
    exact (getUniqueName_free (saveState sc) _ None o Ho I Hn).
  - intros i. unfold duplicateObject. destruct (getObject sc i) as [obj|]; [|exact Hnd].
    destruct (position obj) as [[x y] z].
    unfold getObjects, map_values. cbn [sobjects].
    apply map_set_names_nodup; [exact Hnd|].
    intros Hin. apply in_map_iff in Hin as [o [Hn Ho]].
    exact (getUniqueName_free (saveState sc) (name obj) None o Ho I Hn).
Qed.

Lemma names_stay_distinct_witness :
  NoDup (map name (getObjects two_objects)) /\
  NoDup (map name (getObjects (duplicateObject (fun _ => "gen") "A" two_objects))).
Proof.
  assert (H : NoDup (map name (getObjects two_objects))).
  { vm_compute. constructor; [intros [H|[]]; discriminate | constructor; [intros []|constructor]]. }
  split; [exact H | exact (proj2 (names_stay_distinct (fun _ => "gen") two_objects H) "A")].
Defined.

(** ** A batch that ends in UNDO *)

(** X18: a batch made of CREATE, UPDATE, DELETE, CLEAR and FOCUS commands,
    at least one of them changing the scene, followed by an UNDO in the
    same batch, leaves the objects as they were before the batch (when the
    scene reads back from its snapshot); the state the batch built is on
    the redo stack. *)
Theorem batch_then_undo (fresh_id : nat -> string) (sc : scene) (cmds : list AICommand) :
  scene_wf sc = true ->
  existsb (fun c => modifies (action c)) cmds = true ->
  forallb (fun c => negb (is_undo_redo c)) cmds = true ->
  sobjects (processCommands fresh_id (cmds ++ [mkCommand UNDO None None]) sc) = sobjects sc /\
  redoStack (processCommands fresh_id (cmds ++ [mkCommand UNDO None None]) sc) =
    [exportScene (processCommands fresh_id cmds sc)].
Proof.
  intros Hwf Hm Hu.
  assert (E : processCommands fresh_id (cmds ++ [mkCommand UNDO None None]) sc =
              undo (processCommands fresh_id cmds sc)).
  { unfold processCommands. rewrite existsb_app, Hm. simpl. rewrite fold_left_app. reflexivity. }
  rewrite E.
  assert (Hmut : mutating sc (OpProcess cmds) = true) by (simpl; rewrite Hm, Hu; reflexivity).
  exact (undo_after_mutating fresh_id sc (OpProcess cmds) Hwf Hmut).
Qed.

Lemma batch_then_undo_witness :
  sobjects (processCommands (fun _ => "gen")
              [create_cmd "C" "Z"; mkCommand DELETE (Some "A") None; mkCommand UNDO None None]
              two_objects) = sobjects two_objects.
Proof.
  apply (batch_then_undo (fun _ => "gen") two_objects [create_cmd "C" "Z"; mkCommand DELETE (Some "A") None]);
    vm_compute; reflexivity.
Defined.
